(** * stbt-batch.d/run.py: scheduling and run supervision

  A shallow embedding of the batch runner of stb-tester
  ([src/stbt-batch.d/run.py], Python 2) and the properties of its
  controller loop, its two schedulers and its run-directory manager.

  Conventions of the embedding:
  - Python integers are [Z]; Python floats (clock readings, durations,
    weights) are idealised as rationals [Q]: the properties below only
    depend on the order and sign of sums, which rounding to nearest
    preserves;
  - exceptions are values of [Py.exn], fallible code returns [Py.result];
  - generators are state machines driven by a [next] function;
  - reads of the outside world (clock, random source, file system) are
    explicit arguments or fields of a world record. *)

From Stdlib Require Import ZArith QArith Lia Lqa List Permutation Ascii String.
From stdpp Require Import gmap strings list fin_maps sorting.

(** ** Python results and exceptions *)

Module Py.

(** The [errno] values the program distinguishes, and the rest. *)
Inductive errno := EEXIST | ENOENT | EISDIR | EOTHER (code : Z).

Inductive exn :=
| StopIteration
| AssertionError
| ZeroDivisionError
| IndexError
| SystemExit (code : Z)
| OSError (e : errno)
| Exception (what : string).

Inductive result (A : Type) :=
| Ok (a : A)
| Raise (e : exn).
Arguments Ok {A} a.
Arguments Raise {A} e.

Definition bind {A B} (m : result A) (k : A -> result B) : result B :=
  match m with
  | Ok a => k a
  | Raise e => Raise e
  end.

(** Python 2 orders [None] below every integer: [None > n] and
    [None >= n] are [False]. *)
Definition gt (a : option Z) (n : Z) : bool :=
  match a with
  | None => false
  | Some k => (k >? n)%Z
  end.

Definition ge (a : option Z) (n : Z) : bool :=
  match a with
  | None => false
  | Some k => (k >=? n)%Z
  end.

End Py.

(** ** The batch controller: [main], lines 95-150 *)

Module Controller.
Import Py.
Local Open Scope Z_scope.

(** [run_count], [failure_count] and [last_exit_status] of [main]. *)
Record BatchState := {
  run_count : Z;
  failure_count : Z;
  last_exit_status : Z
}.

(** What the outside world does during one pass through the loop body:
    the value of [term_count[0]] read at the top, the outcome of the
    [with setup_dirs(...)] block (the exit status returned by [run_one],
    or an exception that leaves [main]), and whether
    [<output>/latest<tag>/unrecoverable-error] exists afterwards. *)
Record Iteration := {
  term_count : Z;
  run : result Z;
  unrecoverable_error : bool
}.

Inductive Flow := Continue | Break.

Definition initial : BatchState :=
  {| run_count := 0; failure_count := 0; last_exit_status := 0 |}.

(** The body of [for test_name, test_args in test_generator], lines
    119-141.  [keep_going] is [args.keep_going]: [None] when [-k] was not
    given ([action="count"] without a default).  [log] is not a variable of
    the program: it records the exit status of every run executed, for the
    statements below. *)
Definition loop_body (keep_going : option Z) (it : Iteration)
    (st : BatchState) (log : list Z) : result (BatchState * list Z * Flow) :=
  if term_count it >? 0 then Ok (st, log, Break)
  else
    let rc := run_count st + 1 in
    match run it with
    | Raise e => Raise e
    | Ok status =>
      let fc := if negb (status =? 0) then failure_count st + 1
                else failure_count st in
      let st' := {| run_count := rc; failure_count := fc;
                    last_exit_status := status |} in
      let log' := log ++ [status] in
      if unrecoverable_error it then Ok (st', log', Break)
      else if status =? 0 then Ok (st', log', Continue)
      else if (status >=? 2) && gt keep_going 0 then Ok (st', log', Continue)
      else if ge keep_going 2 then Ok (st', log', Continue)
      else Ok (st', log', Break)
    end.

(** The [for] loop over what the generator yields.  [its] lists, in
    order, what happens at each value the generator can still yield; the
    loop ends when the generator is exhausted or the body breaks. *)
Fixpoint main_loop (keep_going : option Z) (its : list Iteration)
    (st : BatchState) (log : list Z) : result (BatchState * list Z) :=
  match its with
  | [] => Ok (st, log)
  | it :: rest =>
    match loop_body keep_going it st log with
    | Raise e => Raise e
    | Ok (st', log', Continue) => main_loop keep_going rest st' log'
    | Ok (st', log', Break) => Ok (st', log')
    end
  end.

(** Lines 143-150. *)
Definition exit_code (st : BatchState) : Z :=
  if run_count st =? 1 then last_exit_status st
  else if failure_count st =? 0 then 0
  else 1.

(** [main] from line 95 on: [has_ts] is the result of
    [find_executable('ts')].  The call on line 116, which raises when no
    test was given, is not part of the model. *)
Definition main (has_ts : bool) (keep_going : option Z)
    (its : list Iteration) : result Z :=
  if negb has_ts then Ok 1
  else
    match main_loop keep_going its initial [] with
    | Raise e => Raise e
    | Ok (st, _) => Ok (exit_code st)
    end.

(** The keep-going level: the number of [-k] flags. *)
Definition level (keep_going : option Z) : Z :=
  match keep_going with
  | None => 0
  | Some k => k
  end.

(** A completed run with no interrupt pending. *)
Definition completed (status : Z) (sentinel : bool) : Iteration :=
  {| term_count := 0; run := Ok status; unrecoverable_error := sentinel |}.

Definition flow_of (r : result (BatchState * list Z * Flow)) : option Flow :=
  match r with
  | Ok (_, _, f) => Some f
  | Raise _ => None
  end.

End Controller.

(** ** Generators

    A Python generator is a state [St] and a function [next] that runs the
    body up to the following [yield].  One call of [next] yields a value,
    returns (the caller sees [StopIteration]), raises, or never comes back. *)

Module Gen.
Import Py.

Inductive step (St A : Type) :=
| Yield (a : A) (s : St)
| Return (s : St)
| Throw (e : exn) (s : St)
| Hang.
Arguments Yield {St A} a s.
Arguments Return {St A} s.
Arguments Throw {St A} e s.
Arguments Hang {St A}.

(** How a sequence of [next()] calls ended. *)
Inductive ending (St : Type) :=
| Suspended (s : St)
| Exhausted (s : St)
| Raised (e : exn) (s : St)
| Hung.
Arguments Suspended {St} s.
Arguments Exhausted {St} s.
Arguments Raised {St} e s.
Arguments Hung {St}.

(** [pull n next s]: call [next()] up to [n] times, as [itertools.islice]
    or a [for] loop with a counter does; the values yielded, and how the
    calls ended. *)
Fixpoint pull {St A} (n : nat) (next : St -> step St A) (s : St)
    : list A * ending St :=
  match n with
  | O => ([], Suspended s)
  | S n' =>
    match next s with
    | Yield a s' => let (l, e) := pull n' next s' in (a :: l, e)
    | Return s' => ([], Exhausted s')
    | Throw e s' => ([], Raised e s')
    | Hang => ([], Hung)
    end
  end.

Definition yields {St A} (n : nat) (next : St -> step St A) (s : St) : list A :=
  fst (pull n next s).

Definition is_exhausted {St} (e : ending St) : bool :=
  match e with
  | Exhausted _ => true
  | _ => false
  end.

Definition is_suspended {St} (e : ending St) : bool :=
  match e with
  | Suspended _ => true
  | _ => false
  end.

End Gen.

(** ** The sequential scheduler: [loop_tests], lines 310-315 *)

Module Sequential.
Import Gen.

Section LoopTests.
Context {T : Type}.

(** Where the generator is suspended: inside the [for] loop with [rest]
    still to be yielded in this pass (before the first call, the whole
    list), or finished. *)
Inductive state :=
| Running (rest : list T)
| Finished.

Definition loop_tests (test_cases : list T) : state := Running test_cases.

(** One [next()] on [loop_tests(test_cases, repeat)].  When a pass is over
    and [repeat] holds, [while True] starts the next pass; on an empty list
    that pass yields nothing and the loop spins for ever. *)
Definition next (test_cases : list T) (repeat : bool) (s : state)
    : step state T :=
  match s with
  | Running (test :: rest) => Yield test (Running rest)
  | Running [] =>
    if negb repeat then Return Finished
    else
      match test_cases with
      | test :: rest => Yield test (Running rest)
      | [] => Hang
      end
  | Finished => Return Finished
  end.

End LoopTests.
Arguments state T : clear implicits.

End Sequential.

(** ** [weighted_choice], lines 318-329 *)

Module WeightedChoice.
Import Py.
Local Open Scope Q_scope.

(** [random.uniform(a, b)] is [a + (b-a) * random()], with [random()]
    in [[0, 1)]; [u] is that draw. *)
Definition uniform (a b u : Q) : Q := a + (b - a) * u.

(** [sum(w for c, w in choices)]: starts at 0 and adds from the left. *)
Definition sum_weights {C} (choices : list (C * Q)) : Q :=
  fold_left Qplus (map snd choices) 0.

(** The [for c, w in choices] loop, entered with the running sum [upto];
    falling out of it reaches [assert False]. *)
Fixpoint scan {C} (choices : list (C * Q)) (upto r : Q) : result C :=
  match choices with
  | [] => Raise AssertionError
  | (c, w) :: rest =>
    match upto + w ?= r with
    | Gt => Ok c
    | _ => scan rest (upto + w) r
    end
  end.

Definition weighted_choice {C} (u : Q) (choices : list (C * Q)) : result C :=
  let total := sum_weights choices in
  let r := uniform 0 total u in
  scan choices 0 r.

End WeightedChoice.

(** ** The load-balancing scheduler: [shuffle], lines 332-352 *)

Module Shuffle.
Import Py Gen WeightedChoice.

(** [int(x)] truncates towards zero. *)
Definition int (x : Q) : Z := Z.quot (Qnum x) (Z.pos (Qden x)).

(** A list subscript: negative indices count from the end, anything out
    of range is an [IndexError] ([None] here). *)
Definition subscript {A} (l : list A) (i : Z) : option nat :=
  let n := Z.of_nat (length l) in
  if ((0 <=? i) && (i <? n))%Z then Some (Z.to_nat i)
  else if ((i <? 0) && (0 <=? i + n))%Z then Some (Z.to_nat (i + n))
  else None.

Section Shuffle.
Context {T : Type} `{Countable T}.

(** The world the generator runs in: the heap of list objects (the
    caller's [test_cases] lives there, and so does the copy the generator
    makes), the successive readings of [time.time()] and the successive
    results of [random.random()], each with the number consumed so far. *)
Record World := {
  heap : gmap nat (list T);
  clock : nat -> Q;
  ticks : nat;
  rng : nat -> Q;
  draws : nat
}.

Definition set_heap (h : gmap nat (list T)) (w : World) : World :=
  {| heap := h; clock := clock w; ticks := ticks w;
     rng := rng w; draws := draws w |}.

Definition time_time (w : World) : Q * World :=
  (clock w (ticks w),
   {| heap := heap w; clock := clock w; ticks := S (ticks w);
      rng := rng w; draws := draws w |}).

Definition random_random (w : World) : Q * World :=
  (rng w (draws w),
   {| heap := heap w; clock := clock w; ticks := ticks w;
      rng := rng w; draws := S (draws w) |}).

(** [test_cases[:]]: a new list object with the same elements. *)
Definition copy_list (x : nat) (w : World) : result nat * World :=
  match heap w !! x with
  | None => (Raise (Exception "dangling reference"), w)
  | Some l =>
    let y := fresh (dom (heap w)) in
    (Ok y, set_heap (<[y := l]> (heap w)) w)
  end.

(** [random.shuffle(x)] of CPython 2.7:
    [for i in reversed(xrange(1, len(x))):
         j = int(random() * (i+1)); x[i], x[j] = x[j], x[i]].
    [shuffle_down i] runs the iterations [i, i-1, ..., 1] on the list
    object at [x]. *)
Fixpoint shuffle_down (i : nat) (x : nat) (w : World) : result unit * World :=
  match i with
  | O => (Ok tt, w)
  | S i' =>
    let (u, w1) := random_random w in
    let j := int (u * inject_Z (Z.of_nat (i + 1))) in
    match heap w1 !! x with
    | None => (Raise (Exception "dangling reference"), w1)
    | Some l =>
      match subscript l j with
      | None => (Raise IndexError, w1)
      | Some jn =>
        match l !! jn, l !! i with
        | Some xj, Some xi =>
          shuffle_down i' x
            (set_heap (<[x := <[jn := xi]> (<[i := xj]> l)]> (heap w1)) w1)
        | _, _ => (Raise IndexError, w1)
        end
      end
    end
  end.

Definition random_shuffle (x : nat) (w : World) : result unit * World :=
  match heap w !! x with
  | None => (Raise (Exception "dangling reference"), w)
  | Some l => shuffle_down (length l - 1) x w
  end.

(** The dictionary [timings] maps a test to [[total_duration, run_count]]:
    a [gmap T (Q * Z)]. *)

(** [{test: [0.0, 0] for test in test_cases}]. *)
Definition initial_timings (l : list T) : gmap T (Q * Z) :=
  fold_left (fun m test => <[test := (0%Q, 0%Z)]> m) l ∅.

(** [timings[test][0] += d; timings[test][1] += 1]. *)
Definition record_run (test : T) (d : Q) (timings : gmap T (Q * Z))
    : result (gmap T (Q * Z)) :=
  match timings !! test with
  | None => Raise (Exception "KeyError")
  | Some (total, count) =>
    Ok (<[test := ((total + d)%Q, (count + 1)%Z)]> timings)
  end.

(** [[(k, v[1] / v[0]) for k, v in timings.items()]]: an integer divided by
    a float, which raises on a zero divisor. *)
Fixpoint weights (items : list (T * (Q * Z))) : result (list (T * Q)) :=
  match items with
  | [] => Ok []
  | (k, (total, count)) :: rest =>
    if Qeq_bool total 0 then Raise ZeroDivisionError
    else
      match weights rest with
      | Ok ws => Ok ((k, (inject_Z count / total)%Q) :: ws)
      | Raise e => Raise e
      end
  end.

(** Where the generator is suspended. *)
Inductive state :=
| Created (test_cases : nat) (repeat : bool)
| FirstPass (copy : nat) (idx : nat) (test : T) (start_time : Q)
    (timings : gmap T (Q * Z)) (repeat : bool)
| Draws (test : T) (start_time : Q) (timings : gmap T (Q * Z))
| Finished.

Definition shuffle (test_cases : nat) (repeat : bool) : state :=
  Created test_cases repeat.

(** The [while True] loop from its top (line 348) to the [yield]. *)
Definition draw (timings : gmap T (Q * Z)) (w : World)
    : step (state * World) T :=
  match weights (map_to_list timings) with
  | Raise e => Throw e (Finished, w)
  | Ok choices =>
    let (u, w1) := random_random w in
    match weighted_choice u choices with
    | Raise e => Throw e (Finished, w1)
    | Ok test =>
      let (start_time, w2) := time_time w1 in
      Yield test (Draws test start_time timings, w2)
    end
  end.

(** The first [for] loop from the fetch of element [idx] of the copy
    (line 338) to the [yield]; when the copy is exhausted, on to line 344. *)
Definition first_pass (copy idx : nat) (timings : gmap T (Q * Z))
    (repeat : bool) (w : World) : step (state * World) T :=
  match heap w !! copy with
  | None => Throw (Exception "dangling reference") (Finished, w)
  | Some l =>
    match l !! idx with
    | Some test =>
      let (start_time, w1) := time_time w in
      Yield test (FirstPass copy idx test start_time timings repeat, w1)
    | None =>
      if negb repeat then Return (Finished, w)
      else draw timings w
    end
  end.

(** One [next()] on the generator. *)
Definition next (sw : state * World) : step (state * World) T :=
  let (s, w) := sw in
  match s with
  | Created test_cases repeat =>
    match copy_list test_cases w with
    | (Raise e, w1) => Throw e (Finished, w1)
    | (Ok copy, w1) =>
      match random_shuffle copy w1 with
      | (Raise e, w2) => Throw e (Finished, w2)
      | (Ok _, w2) =>
        match heap w2 !! copy with
        | None => Throw (Exception "dangling reference") (Finished, w2)
        | Some l => first_pass copy 0 (initial_timings l) repeat w2
        end
      end
    end
  | FirstPass copy idx test start_time timings repeat =>
    let (now, w1) := time_time w in
    match record_run test (now - start_time)%Q timings with
    | Raise e => Throw e (Finished, w1)
    | Ok timings' => first_pass copy (S idx) timings' repeat w1
    end
  | Draws test start_time timings =>
    let (now, w1) := time_time w in
    match record_run test (now - start_time)%Q timings with
    | Raise e => Throw e (Finished, w1)
    | Ok timings' => draw timings' w1
    end
  | Finished => Return (Finished, w)
  end.

End Shuffle.
Arguments World T : clear implicits.
Arguments state T {_ _}.

End Shuffle.

(** ** The run-directory manager: [make_rundir], [setup_dirs], [symlink_f],
    lines 172-226 *)

Module RunDir.
Import Py.

Inductive node := Dir | File | Symlink (target : string).

Inductive event :=
| Mkdir (path : string) (err : option errno)
| Symlinked (source name : string) (err : option errno)
| Renamed (old new : string) (err : option errno)
| Slept (seconds : Z).

(** The world of the manager: the file system (a map from path names to
    nodes); the successive readings of [datetime.datetime.now()], in
    seconds; the successive results of [random.randint(0, 999999)]; the
    failures of system calls whose cause is outside this model of the file
    system (permissions, a full disk, a missing parent), by call number;
    the state kept by the observer behind [state_sender]; and the log of
    system calls and sleeps. *)
Record World := {
  fs : gmap string node;
  clock : nat -> Z;
  ticks : nat;
  dice : nat -> Z;
  rolls : nat;
  fault : nat -> option errno;
  calls : nat;
  observer : gmap string (option string);
  log : list event
}.

Definition datetime_now (w : World) : Z * World :=
  (clock w (ticks w),
   {| fs := fs w; clock := clock w; ticks := S (ticks w); dice := dice w;
      rolls := rolls w; fault := fault w; calls := calls w;
      observer := observer w; log := log w |}).

Definition random_randint (w : World) : Z * World :=
  (dice w (rolls w),
   {| fs := fs w; clock := clock w; ticks := ticks w; dice := dice w;
      rolls := S (rolls w); fault := fault w; calls := calls w;
      observer := observer w; log := log w |}).

Definition time_sleep (seconds : Z) (w : World) : World :=
  {| fs := fs w; clock := clock w; ticks := ticks w; dice := dice w;
     rolls := rolls w; fault := fault w; calls := calls w;
     observer := observer w; log := log w ++ [Slept seconds] |}.

(** The effect of one system call: the new file system when it succeeds,
    the call counted and logged either way. *)
Definition syscall (ev : option errno -> event)
    (r : result (gmap string node)) (w : World) : result unit * World :=
  let w' f err :=
    {| fs := f; clock := clock w; ticks := ticks w; dice := dice w;
       rolls := rolls w; fault := fault w; calls := S (calls w);
       observer := observer w; log := log w ++ [ev err] |} in
  match r with
  | Ok f => (Ok tt, w' f None)
  | Raise (OSError e) => (Raise (OSError e), w' (fs w) (Some e))
  | Raise x => (Raise x, w' (fs w) (Some (EOTHER 0)))
  end.

Definition os_mkdir (path : string) (w : World) : result unit * World :=
  syscall (Mkdir path)
    match fault w (calls w) with
    | Some e => Raise (OSError e)
    | None =>
      match fs w !! path with
      | Some _ => Raise (OSError EEXIST)
      | None => Ok (<[path := Dir]> (fs w))
      end
    end w.

Definition os_symlink (source name : string) (w : World)
    : result unit * World :=
  syscall (Symlinked source name)
    match fault w (calls w) with
    | Some e => Raise (OSError e)
    | None =>
      match fs w !! name with
      | Some _ => Raise (OSError EEXIST)
      | None => Ok (<[name := Symlink source]> (fs w))
      end
    end w.

Definition os_rename (old new : string) (w : World) : result unit * World :=
  syscall (Renamed old new)
    match fault w (calls w) with
    | Some e => Raise (OSError e)
    | None =>
      match fs w !! old, fs w !! new with
      | None, _ => Raise (OSError ENOENT)
      | Some Dir, Some Dir => Ok (<[new := Dir]> (delete old (fs w)))
      | Some Dir, Some _ => Raise (OSError (EOTHER 20))
      | Some _, Some Dir => Raise (OSError EISDIR)
      | Some n, _ => Ok (<[new := n]> (delete old (fs w)))
      end
    end w.

(** [os.path.join(a, b)] for two components. *)
Definition starts_with_slash (s : string) : bool :=
  match s with
  | String c _ => Ascii.eqb c "/"%char
  | EmptyString => false
  end.

Fixpoint ends_with_slash (s : string) : bool :=
  match s with
  | EmptyString => false
  | String c EmptyString => Ascii.eqb c "/"%char
  | String _ rest => ends_with_slash rest
  end.

Definition path_join (a b : string) : string :=
  if starts_with_slash b then b
  else if String.eqb a EmptyString || ends_with_slash a then a +:+ b
  else a +:+ "/" +:+ b.

(** Code that changes the world and may raise. *)
Definition M (A : Type) : Type := World -> result A * World.

Definition ret {A} (a : A) : M A := fun w => (Ok a, w).

Definition raise {A} (e : exn) : M A := fun w => (Raise e, w).

Definition and_then {A B} (m : M A) (k : A -> M B) : M B :=
  fun w =>
    match m w with
    | (Ok a, w') => k a w'
    | (Raise e, w') => (Raise e, w')
    end.

Notation "'do' x <- m ; k" := (and_then m (fun x => k))
  (at level 10, x name, m at level 100, k at level 200).

Definition is_EEXIST (e : errno) : bool :=
  match e with
  | EEXIST => true
  | _ => false
  end.

Definition key : string := "active_results_directory".

(** Modelled from the spec: [new_state_sender] of [_stbt/state_watch.py]
    is not among the sources.  The spec describes the observer as "exposing
    a set(key, value)-style interface; this core writes
    active_results_directory = absolute path (string) or null": [set]
    stores the value under the key; [None] is null. *)
Definition state_sender_set (v : option string) : M unit :=
  fun w =>
    (Ok tt,
     {| fs := fs w; clock := clock w; ticks := ticks w; dice := dice w;
        rolls := rolls w; fault := fault w; calls := calls w;
        observer := <[key := v]> (observer w); log := log w |}).

Section Manager.

(** Library functions the manager calls, left open:
    [strftime "%Y-%m-%d_%H.%M.%S"] of a clock reading, [os.path.abspath],
    the format ["%06i"], and [_stbt.utils.mkdir_p] (not among the
    sources). *)
Variable strftime : Z -> string.
Variable abspath : string -> string.
Variable format_06i : Z -> string.
Variable mkdir_p : string -> M unit.

(** The body of [for n in range(2)] of [make_rundir], over the values of
    [n] still to come; leaving the loop returns [None]. *)
Fixpoint make_rundir_for (ns : list Z) (outputdir tag : string)
    : M (option string) :=
  match ns with
  | [] => ret None
  | n :: rest =>
    fun w =>
      let (t, w1) := datetime_now w in
      let rundir := strftime t +:+ tag in
      match os_mkdir (path_join outputdir rundir) w1 with
      | (Ok _, w2) => (Ok (Some rundir), w2)
      | (Raise (OSError e), w2) =>
        if is_EEXIST e && (n =? 0)%Z
        then make_rundir_for rest outputdir tag (time_sleep 1 w2)
        else (Raise (OSError e), w2)
      | (Raise x, w2) => (Raise x, w2)
      end
  end.

Definition make_rundir (outputdir tag : string) : M (option string) :=
  make_rundir_for [0; 1]%Z outputdir tag.

Definition symlink_f (source link_name : string) : M unit :=
  fun w =>
    let (r, w1) := random_randint w in
    let name := link_name +:+ "-" +:+ format_06i r +:+ "~" in
    (do _ <- os_symlink source name;
     os_rename name link_name) w1.

(** [setup_dirs] up to its [yield]: the value is [rundir]; the [with]
    statement binds [os.path.join(outputdir, rundir)]. *)
Definition setup_dirs_enter (outputdir tag : string) : M string :=
  do _ <- mkdir_p outputdir;
  do made <- make_rundir outputdir tag;
  match made with
  | None => raise (Exception "TypeError")
  | Some rundir =>
    do _ <- symlink_f rundir (path_join outputdir ("current" +:+ tag));
    do _ <- state_sender_set
              (Some (abspath (path_join outputdir rundir)));
    ret rundir
  end.



End Manager.

(** The [os.mkdir] calls in a log. *)
Definition is_mkdir (ev : event) : bool :=
  match ev with
  | Mkdir _ _ => true
  | _ => false
  end.

Definition mkdir_calls (l : list event) : list event := filter is_mkdir l.

End RunDir.

(** ** Command-line tests: [listsplit] and [parse_test_args], lines 264-307 *)

Module Args.
Import Py.

Section ListSplit.
Context {A : Type} `{EqDecision A}.

(** [if sublist: out.append(sublist)]: an empty list is false. *)
Definition append_if_nonempty (out : list (list A)) (sublist : list A)
    : list (list A) :=
  match sublist with
  | [] => out
  | _ => out ++ [sublist]
  end.

(** The [for x in l] loop of [listsplit], on the pair [(out, sublist)]. *)
Fixpoint listsplit_loop (l : list A) (v : A) (out : list (list A))
    (sublist : list A) : list (list A) * list A :=
  match l with
  | [] => (out, sublist)
  | x :: rest =>
    if decide (x = v)
    then listsplit_loop rest v (append_if_nonempty out sublist) []
    else listsplit_loop rest v out (sublist ++ [x])
  end.

Definition listsplit (l : list A) (v : A) : list (list A) :=
  let (out, sublist) := listsplit_loop l v [] [] in
  append_if_nonempty out sublist.

End ListSplit.

Definition dashes : string := "--".

(** [[(x[0], tuple(x[1:])) for x in groups]]: [x[0]] raises on an empty
    list. *)
Fixpoint to_tests (groups : list (list string))
    : result (list (string * list string)) :=
  match groups with
  | [] => Ok []
  | [] :: _ => Raise IndexError
  | (name :: args) :: rest =>
    match to_tests rest with
    | Ok tests => Ok ((name, args) :: tests)
    | Raise e => Raise e
    end
  end.

Definition parse_test_args (args : list string)
    : result (list (string * list string)) :=
  if bool_decide (dashes ∈ args)
  then to_tests (listsplit args dashes)
  else Ok (map (fun x => (x, [])) args).

End Args.

(** ** [read_git_info], lines 156-169 *)

Module Git.
Import Py.

Record GitInfo := {
  commit : string;
  commit_sha : string;
  git_dir : string
}.

Definition CalledProcessError : exn := Exception "CalledProcessError".

Definition is_CalledProcessError (e : exn) : bool :=
  match e with
  | Exception what => String.eqb what "CalledProcessError"
  | _ => false
  end.

Definition describe : list string := ["describe"; "--always"; "--dirty"].
Definition rev_parse_head : list string := ["rev-parse"; "HEAD"].
Definition show_toplevel : list string := ["rev-parse"; "--show-toplevel"].

Section ReadGitInfo.

(** [subprocess.check_output(('git',) + cmd, cwd=testdir)]: the output of
    the command, [CalledProcessError] when it exits with a nonzero status,
    [OSError] when it cannot be started; and [str.strip]. *)
Variable check_output : string -> list string -> result string.
Variable strip : string -> string.

Definition git (testdir : string) (cmd : list string) : result string :=
  match check_output testdir cmd with
  | Ok out => Ok (strip out)
  | Raise e => Raise e
  end.

(** The [try] block: the three commands run from left to right. *)
Definition read_git_info_try (testdir : string) : result GitInfo :=
  bind (git testdir describe) (fun c =>
  bind (git testdir rev_parse_head) (fun sha =>
  bind (git testdir show_toplevel) (fun top =>
  Ok {| commit := c; commit_sha := sha; git_dir := top |}))).

(** The handlers, in order: [CalledProcessError] gives [None]; an
    [OSError] other than [ENOENT] is raised again, while [ENOENT] falls out
    of the function, which then returns [None]; anything else is not
    caught. *)
Definition read_git_info (testdir : string) : result (option GitInfo) :=
  match read_git_info_try testdir with
  | Ok info => Ok (Some info)
  | Raise e =>
    if is_CalledProcessError e then Ok None
    else
      match e with
      | OSError ENOENT => Ok None
      | _ => Raise e
      end
  end.

End ReadGitInfo.

End Git.

(** * Properties *)

(** ** The batch controller *)

Module ControllerFacts.
Import Py Controller.
Local Open Scope Z_scope.

(** The runs of a log that failed. *)
Definition failures (log : list Z) : list Z :=
  List.filter (fun e => negb (e =? 0)) log.

(** The counters of [main] describe the log of runs: [run_count] is its
    length, [failure_count] the number of nonzero statuses in it and
    [last_exit_status] its last entry. *)
Definition describes (st : BatchState) (log : list Z) : Prop :=
  run_count st = Z.of_nat (length log)
  /\ failure_count st = Z.of_nat (length (failures log))
  /\ last_exit_status st = List.last log 0.

(** The exit code the specification gives for a log of runs. *)
Definition spec_exit_code (log : list Z) : Z :=
  match log with
  | [e] => e
  | _ => if forallb (fun e => e =? 0) log then 0 else 1
  end.

Lemma describes_initial : describes initial [].
Proof. repeat split. Qed.

Lemma failures_none log :
  forallb (fun e => e =? 0) log = true <-> failures log = [].
Proof.
  induction log as [|e log IH]; simpl; [tauto|].
  destruct (e =? 0); simpl; [exact IH|].
  split; intros ?; discriminate.
Qed.

Lemma describes_snoc st log e :
  describes st log ->
  describes
    {| run_count := run_count st + 1;
       failure_count := if negb (e =? 0) then failure_count st + 1
                        else failure_count st;
       last_exit_status := e |}
    (log ++ [e]).
Proof.
  intros (Hr & Hf & _). unfold describes, failures; simpl.
  rewrite length_app, List.filter_app, length_app, last_last. simpl.
  split; [lia|]. split; [|reflexivity].
  fold (failures log). destruct (negb (e =? 0)); simpl; lia.
Qed.

Lemma loop_body_describes kg it st log st' log' flow :
  describes st log ->
  loop_body kg it st log = Ok (st', log', flow) ->
  describes st' log'.
Proof.
  intros Hd. unfold loop_body.
  destruct (term_count it >? 0); [intros [= <- <- _]; exact Hd|].
  destruct (run it) as [e|]; [|discriminate].
  pose proof (describes_snoc st log e Hd) as Hs.
  repeat match goal with
         | |- context [if ?b then _ else _] => destruct b
         end; intros [= <- <- _]; exact Hs.
Qed.

Lemma main_loop_describes kg its : forall st log st' log',
  describes st log ->
  main_loop kg its st log = Ok (st', log') ->
  describes st' log'.
Proof.
  induction its as [|it rest IH]; simpl; intros st log st' log' Hd.
  - intros [= <- <-]; exact Hd.
  - destruct (loop_body kg it st log) as [[[st1 log1] flow]|] eqn:Hb;
      [|discriminate].
    pose proof (loop_body_describes _ _ _ _ _ _ _ Hd Hb) as Hd1.
    destruct flow.
    + apply IH; exact Hd1.
    + intros [= <- <-]; exact Hd1.
Qed.

Lemma exit_code_describes st log :
  describes st log -> exit_code st = spec_exit_code log.
Proof.
  intros (Hr & Hf & Hl). unfold exit_code, spec_exit_code.
  destruct log as [|e [|e' log]].
  - simpl in *. rewrite Hr, Hf. reflexivity.
  - simpl in *. rewrite Hr. simpl. exact Hl.
  - replace (run_count st =? 1) with false
      by (symmetry; apply Z.eqb_neq; rewrite Hr; simpl length; lia).
    destruct (forallb (fun e => e =? 0) (e :: e' :: log)) eqn:Hall.
    + apply failures_none in Hall. rewrite Hall in Hf. rewrite Hf.
      reflexivity.
    + replace (failure_count st =? 0) with false; [reflexivity|].
      symmetry. apply Z.eqb_neq. rewrite Hf.
      destruct (failures (e :: e' :: log)) eqn:Hflt; [|simpl; lia].
      apply failures_none in Hflt. congruence.
Qed.

Lemma main_loop_completes kg its : forall st log,
  Forall (fun it => exists e, run it = Ok e) its ->
  exists st' log', main_loop kg its st log = Ok (st', log').
Proof.
  induction its as [|it rest IH]; simpl; intros st log Hall; [eauto|].
  inversion Hall as [|? ? [e He] Hrest]; subst.
  unfold loop_body. rewrite He.
  repeat match goal with
         | |- context [if ?b then _ else _] => destruct b
         end; eauto.
Qed.

(** C1.  After a completed run with exit status [e], the loop body goes on
    to the next iteration exactly when the unrecoverable-error sentinel is
    absent and [e = 0], or [e >= 2] with keep-going level at least 1, or the
    level is at least 2; otherwise it breaks out of the loop.  So level 0
    with status 1 stops, level 1 with status 2 continues, level 1 with
    status 1 stops, and level 2 continues on every status when the sentinel
    is absent. *)
Theorem decision_policy (keep_going : option Z) (e : Z) (sentinel : bool)
    (st : BatchState) (log : list Z) :
  let go := sentinel = false
            /\ (e = 0 \/ (e >= 2 /\ level keep_going >= 1)
                \/ level keep_going >= 2) in
  (flow_of (loop_body keep_going (completed e sentinel) st log)
     = Some Continue <-> go)
  /\ (flow_of (loop_body keep_going (completed e sentinel) st log)
        = Some Break <-> ~ go)
  /\ flow_of (loop_body None (completed 1 false) st log) = Some Break
  /\ flow_of (loop_body (Some 0) (completed 1 false) st log) = Some Break
  /\ flow_of (loop_body (Some 1) (completed 2 false) st log) = Some Continue
  /\ flow_of (loop_body (Some 1) (completed 1 false) st log) = Some Break
  /\ flow_of (loop_body (Some 2) (completed e false) st log) = Some Continue.
Proof.
  intros go. subst go.
  assert (Hflow : forall kg s,
    flow_of (loop_body kg (completed e s) st log) =
    Some (if s then Break
          else if e =? 0 then Continue
          else if (e >=? 2) && gt kg 0 then Continue
          else if ge kg 2 then Continue else Break)).
  { intros kg s. unfold loop_body, completed; simpl.
    destruct s; [reflexivity|].
    repeat match goal with
           | |- context [if ?b then _ else _] => destruct b
           end; reflexivity. }
  split; [|split; [|repeat split]]; try reflexivity.
  - rewrite Hflow. unfold gt, ge, level.
    destruct sentinel; [split; [discriminate|intros [? _]; discriminate]|].
    destruct (Z.eqb_spec e 0) as [->|Hne]; [intuition lia|].
    destruct keep_going as [k|]; simpl.
    + destruct (Z.geb_spec e 2), (Z.gtb_spec k 0), (Z.geb_spec k 2); simpl;
        split; try discriminate; intuition lia.
    + rewrite andb_false_r. split; [discriminate|intuition lia].
  - rewrite Hflow. unfold gt, ge, level.
    destruct sentinel; [split; [intros _ [? _]; discriminate|reflexivity]|].
    destruct (Z.eqb_spec e 0) as [->|Hne];
      [split; [discriminate|intros Hn; exfalso; apply Hn; intuition lia]|].
    destruct keep_going as [k|]; simpl.
    + destruct (Z.geb_spec e 2), (Z.gtb_spec k 0), (Z.geb_spec k 2); simpl;
        split; try discriminate; try reflexivity;
        try (intros _ [_ Hc]; lia);
        intros Hn; exfalso; apply Hn; intuition lia.
    + rewrite andb_false_r. split; [intros _ [_ Hc]; lia|reflexivity].
  - rewrite Hflow. simpl. destruct (e =? 0), (e >=? 2); reflexivity.
Qed.

(** C9.  When the unrecoverable-error sentinel exists after a run, the
    loop body breaks whatever the exit status and the keep-going level
    (also for status 0 and level 2), and [main]'s loop runs none of the
    tests the generator could still yield. *)
Theorem unrecoverable_error_stops (keep_going : option Z) (e : Z)
    (st : BatchState) (log : list Z) (rest : list Iteration) :
  flow_of (loop_body keep_going (completed e true) st log) = Some Break
  /\ flow_of (loop_body (Some 2) (completed 0 true) st log) = Some Break
  /\ main_loop keep_going (completed e true :: rest) st log
     = main_loop keep_going [completed e true] st log
  /\ exists st',
       main_loop keep_going (completed e true :: rest) st log
       = Ok (st', log ++ [e]).
Proof.
  assert (Hb : exists st',
    loop_body keep_going (completed e true) st log
    = Ok (st', log ++ [e], Break)).
  { unfold loop_body, completed; simpl. eauto. }
  destruct Hb as [st' Hb].
  split; [|split; [|split]].
  - rewrite Hb. reflexivity.
  - reflexivity.
  - cbn [main_loop]. rewrite Hb. reflexivity.
  - exists st'. cbn [main_loop]. rewrite Hb. reflexivity.
Qed.

(** C2.  The exit code of the batch: when [main]'s loop ends having
    executed the runs in [log], [main] returns the status of the run if
    exactly one run was executed, and otherwise 0 if no run had a nonzero
    status and 1 if one had; the loop always ends when every run
    completes; a single run that exits with 3 gives 3. *)
Theorem final_exit_code (keep_going : option Z) (its : list Iteration) :
  match main_loop keep_going its initial [] with
  | Ok (st, log) =>
    main true keep_going its = Ok (spec_exit_code log)
    /\ run_count st = Z.of_nat (length log)
  | Raise x => main true keep_going its = Raise x
  end
  /\ (Forall (fun it => exists e, run it = Ok e) its ->
      exists code, main true keep_going its = Ok code)
  /\ (forall e s, main true keep_going [completed e s] = Ok e)
  /\ main true keep_going [completed 3 false] = Ok 3.
Proof.
  assert (Hsingle : forall e s, main true keep_going [completed e s] = Ok e).
  { intros e s. unfold main; simpl negb; cbv iota.
    destruct (main_loop keep_going [completed e s] initial [])
      as [[st log]|x] eqn:Hm.
    - pose proof (main_loop_describes _ _ _ _ _ _ describes_initial Hm) as Hd.
      rewrite (exit_code_describes _ _ Hd).
      revert Hm. unfold main_loop, loop_body, completed; simpl.
      repeat match goal with
             | |- context [if ?b then _ else _] => destruct b
             end; intros [= <- <-]; reflexivity.
    - revert Hm. unfold main_loop, loop_body, completed; simpl.
      repeat match goal with
             | |- context [if ?b then _ else _] => destruct b
             end; discriminate. }
  split; [|split; [|split]]; [| |exact Hsingle|apply Hsingle].
  - unfold main; simpl negb; cbv iota.
    destruct (main_loop keep_going its initial []) as [[st log]|x] eqn:Hm;
      [|reflexivity].
    pose proof (main_loop_describes _ _ _ _ _ _ describes_initial Hm) as Hd.
    rewrite (exit_code_describes _ _ Hd). split; [reflexivity|apply Hd].
  - intros Hall. unfold main; simpl negb; cbv iota.
    destruct (main_loop_completes keep_going its initial [] Hall)
      as (st & log & ->). eauto.
Qed.

End ControllerFacts.

(** ** The sequential scheduler *)

Module SequentialFacts.
Import Gen Sequential.

Section Facts.
Context {T : Type}.
Implicit Types (l rest : list T) (n k p : nat).

(** Without [repeat]: from a point of the pass with [rest] to come, [n]
    calls yield the first [n] elements of [rest]; the call after the last
    element ends the generator. *)
Lemma pull_once l : forall n rest,
  pull n (next l false) (Running rest) =
  (take n rest,
   if (n <=? length rest)%nat then Suspended (Running (drop n rest))
   else Exhausted Finished).
Proof.
  induction n as [|n IH]; intros rest.
  - reflexivity.
  - destruct rest as [|x rest]; [reflexivity|].
    cbn [pull next]. rewrite IH. reflexivity.
Qed.

(** With [repeat], on a non-empty list: from position [k] of a pass, the
    [i]-th value yielded is the element at position [k + i] modulo the
    length, and the generator never ends. *)
Lemma pull_repeat l : l <> [] -> forall n k p,
  k <= length l ->
  p mod length l = k mod length l ->
  length (fst (pull n (next l true) (Running (drop k l)))) = n
  /\ is_suspended (snd (pull n (next l true) (Running (drop k l)))) = true
  /\ forall i, i < n ->
       fst (pull n (next l true) (Running (drop k l))) !! i
       = l !! ((p + i) mod length l).
Proof.
  intros Hne.
  assert (Hlen : 0 < length l) by (destruct l; [congruence|simpl; lia]).
  induction n as [|n IH]; intros k p Hk Hp.
  - repeat split. intros i Hi. lia.
  - assert (Hstep : exists x k',
      next l true (Running (drop k l)) = Yield x (Running (drop k' l))
      /\ l !! (p mod length l) = Some x
      /\ k' <= length l
      /\ S p mod length l = k' mod length l).
    { destruct (drop k l) as [|x rest] eqn:Hd.
      - apply drop_nil_inv in Hd.
        assert (k = length l) by lia. subst k.
        destruct l as [|x l']; [congruence|].
        exists x, 1. cbn [next negb].
        rewrite Nat.Div0.mod_same in Hp.
        split; [reflexivity|]. split; [rewrite Hp; reflexivity|].
        split; [simpl; lia|].
        replace (S p) with (p + 1) by lia.
        rewrite Nat.Div0.add_mod, Hp, Nat.add_0_l.
        apply Nat.Div0.mod_mod.
      - assert (Hx : l !! k = Some x).
        { rewrite <- (Nat.add_0_r k), <- lookup_drop, Hd. reflexivity. }
        pose proof (lookup_lt_Some _ _ _ Hx) as Hlt.
        exists x, (S k). cbn [next].
        repeat split.
        + rewrite (drop_S _ _ _ Hx) in Hd. congruence.
        + rewrite Hp, Nat.mod_small by lia. exact Hx.
        + lia.
        + replace (S p) with (p + 1) by lia.
          replace (S k) with (k + 1) by lia.
          rewrite Nat.Div0.add_mod, Hp, <- Nat.Div0.add_mod. reflexivity. }
    destruct Hstep as (x & k' & Hnext & Hx & Hk' & Hp').
    cbn [pull]. rewrite Hnext.
    destruct (IH k' (S p) Hk' Hp') as (IH1 & IH2 & IH3).
    destruct (pull n (next l true) (Running (drop k' l))) as [ys e].
    simpl in *. repeat split; [lia|exact IH2|].
    intros [|i] Hi.
    + rewrite Nat.add_0_r. symmetry. exact Hx.
    + simpl. rewrite IH3 by lia. f_equal. f_equal. lia.
Qed.

(** C6.  [loop_tests] yields the test cases in their original order.
    Without [repeat], [n] calls yield the first [n] of them and the call
    after the last one ends the generator: one full pass, [A, B, C] for
    [[A, B, C]].  With [repeat] on a non-empty list the generator never
    ends and its [i]-th value is the element at position [i] modulo the
    length of the list: [A, B, A, B, A, B, A, B, A, B] for [[A, B]]. *)
Theorem loop_tests_sequence (test_cases : list T) (A B C : T) :
  (forall n,
     pull n (next test_cases false) (loop_tests test_cases) =
     (take n test_cases,
      if (n <=? length test_cases)%nat
      then Suspended (Running (drop n test_cases))
      else Exhausted Finished))
  /\ pull (S (length test_cases)) (next test_cases false)
       (loop_tests test_cases) = (test_cases, Exhausted Finished)
  /\ pull 4 (next [A; B; C] false) (loop_tests [A; B; C])
     = ([A; B; C], Exhausted Finished)
  /\ (test_cases <> [] -> forall n,
        length (yields n (next test_cases true) (loop_tests test_cases)) = n
        /\ is_suspended
             (snd (pull n (next test_cases true) (loop_tests test_cases)))
           = true
        /\ forall i, i < n ->
             yields n (next test_cases true) (loop_tests test_cases) !! i
             = test_cases !! (i mod length test_cases))
  /\ yields 10 (next [A; B] true) (loop_tests [A; B])
     = [A; B; A; B; A; B; A; B; A; B].
Proof.
  split; [|split; [|split; [|split]]]; try reflexivity.
  - intros n. apply pull_once.
  - unfold loop_tests. rewrite pull_once.
    rewrite take_ge by lia.
    replace (S (length test_cases) <=? length test_cases)%nat with false
      by (symmetry; apply Nat.leb_gt; lia).
    reflexivity.
  - intros Hne n. unfold yields, loop_tests.
    change (Running test_cases) with (Running (drop 0 test_cases)).
    apply (pull_repeat test_cases Hne n 0 0); [lia|reflexivity].
Qed.

End Facts.

End SequentialFacts.

(** ** Weighted choice *)

Module WeightedChoiceFacts.
Import Py WeightedChoice.
Local Open Scope Q_scope.

Section Facts.
Context {C : Type}.
Implicit Types (choices pre post : list (C * Q)) (upto r u w : Q).

(** The running sum after the items of [pre], starting from [upto]. *)
Definition running_sum pre upto : Q := fold_left Qplus (map snd pre) upto.

Definition nonnegative choices : Prop := Forall (fun cw => 0 <= snd cw) choices.

Lemma running_sum_mono choices : forall upto,
  nonnegative choices -> upto <= running_sum choices upto.
Proof.
  induction choices as [|[c w] rest IH]; intros upto Hnn.
  - unfold running_sum; simpl. lra.
  - inversion Hnn as [|? ? Hw Hrest]; subst. simpl in Hw.
    unfold running_sum in *; simpl.
    specialize (IH (upto + w) Hrest). lra.
Qed.




Lemma uniform_nonneg total u :
  0 <= total -> 0 <= u -> 0 <= uniform 0 total u.
Proof.
  intros Ht Hu. unfold uniform. nra.
Qed.






End Facts.


End WeightedChoiceFacts.

(** ** The run-directory manager *)

Module RunDirFacts.
Import Py RunDir.

Section Facts.
Variable strftime : Z -> string.
Variable abspath : string -> string.
Variable format_06i : Z -> string.
Variable mkdir_p : string -> M unit.

(** The path of the directory that the attempt made at clock reading
    number [i] tries to create. *)
Definition candidate (outputdir tag : string) (w : World) (i : nat) : string :=
  path_join outputdir (strftime (clock w i) +:+ tag).

Definition candidate_name (tag : string) (w : World) (i : nat) : string :=
  strftime (clock w i) +:+ tag.

(** [os.mkdir] reads the clock of the world no further and raises nothing
    but [OSError]. *)
Lemma os_mkdir_cases path w :
  (exists w', os_mkdir path w = (Ok tt, w')
      /\ log w' = log w ++ [Mkdir path None]
      /\ clock w' = clock w /\ ticks w' = ticks w)
  \/ (exists e w', os_mkdir path w = (Raise (OSError e), w')
      /\ log w' = log w ++ [Mkdir path (Some e)]
      /\ fs w' = fs w /\ observer w' = observer w
      /\ clock w' = clock w /\ ticks w' = ticks w).
Proof.
  unfold os_mkdir, syscall.
  destruct (fault w (calls w)) as [e|].
  - right. eexists _, _. simpl. eauto 10.
  - destruct (fs w !! path).
    + right. eexists _, _. simpl. eauto 10.
    + left. eexists. simpl. eauto 10.
Qed.

(** The four ways [make_rundir] can go, read off its result and the log
    it leaves. *)
Definition make_rundir_outcome (outputdir tag : string) (w : World)
    (r : result (option string)) (w' : World) : Prop :=
  let p0 := candidate outputdir tag w (ticks w) in
  let p1 := candidate outputdir tag w (S (ticks w)) in
  (r = Ok (Some (candidate_name tag w (ticks w)))
   /\ log w' = log w ++ [Mkdir p0 None])
  \/ (exists e, e <> EEXIST /\ r = Raise (OSError e)
      /\ log w' = log w ++ [Mkdir p0 (Some e)])
  \/ (r = Ok (Some (candidate_name tag w (S (ticks w))))
      /\ log w' = log w ++ [Mkdir p0 (Some EEXIST); Slept 1; Mkdir p1 None])
  \/ (exists e, r = Raise (OSError e)
      /\ log w' = log w
                  ++ [Mkdir p0 (Some EEXIST); Slept 1; Mkdir p1 (Some e)]).

Lemma make_rundir_cases outputdir tag w r w' :
  make_rundir strftime outputdir tag w = (r, w') ->
  make_rundir_outcome outputdir tag w r w'.
Proof.
  unfold make_rundir, make_rundir_outcome, candidate, candidate_name.
  cbn [make_rundir_for]. unfold datetime_now at 1. cbv zeta.
  match goal with
  | |- context [os_mkdir ?p ?w0] =>
    destruct (os_mkdir_cases p w0)
      as [(w1 & -> & Hl1 & Hc1 & Ht1)|(e & w1 & -> & Hl1 & _ & _ & Hc1 & Ht1)]
  end; simpl in Hl1, Hc1, Ht1.
  - intros [= <- <-]. left. split; [reflexivity|exact Hl1].
  - destruct e; cbn [is_EEXIST andb Z.eqb];
      try (intros [= <- <-]; right; left; eexists;
           split; [|split; [reflexivity|exact Hl1]]; discriminate).
    unfold datetime_now, time_sleep. cbv zeta. cbn [clock ticks].
    match goal with
    | |- context [os_mkdir ?p ?w0] =>
      destruct (os_mkdir_cases p w0)
        as [(w2 & -> & Hl2 & _)|(e & w2 & -> & Hl2 & _)]
    end; simpl in Hl2; rewrite Hl1, <- !app_assoc in Hl2; simpl in Hl2;
      rewrite Hc1, Ht1 in *.
    + intros [= <- <-]. right; right; left. split; [reflexivity|exact Hl2].
    + cbn [Z.eqb andb]. rewrite andb_false_r.
      intros [= <- <-]. right; right; right. exists e.
      split; [reflexivity|exact Hl2].
Qed.

(** C7.  [make_rundir] tries to create the directory named by the current
    clock reading and the tag.  If that succeeds, or fails with anything but
    [EEXIST], it is done after one attempt (the failure is raised).  If it
    fails with [EEXIST] it sleeps one second, reads the clock again and
    tries the new name; whatever the second attempt gives is the outcome, a
    failure is raised and not retried.  No more than two [os.mkdir] calls
    are made. *)
Theorem make_rundir_retries_once (outputdir tag : string) (w : World) :
  let r := fst (make_rundir strftime outputdir tag w) in
  let w' := snd (make_rundir strftime outputdir tag w) in
  make_rundir_outcome outputdir tag w r w'
  /\ exists new, log w' = log w ++ new
                 /\ 1 <= length (mkdir_calls new) <= 2.
Proof.
  intros r w'.
  assert (Hcases : make_rundir_outcome outputdir tag w r w')
    by (apply make_rundir_cases, surjective_pairing).
  split; [exact Hcases|].
  destruct Hcases as [[_ ->]|[(e & _ & _ & ->)|[[_ ->]|(e & _ & ->)]]];
    eexists; (split; [reflexivity|]); simpl; lia.
Qed.






End Facts.

(** A world with an empty output directory ["out"], a clock stuck at 0, a
    random source that always gives 0 and no failing system call. *)
Definition quiet_world (files : gmap string node) : World :=
  {| fs := files; clock := fun _ => 0%Z; ticks := 0;
     dice := fun _ => 0%Z; rolls := 0;
     fault := fun _ => None; calls := 0;
     observer := ∅; log := [] |}.

Definition stamp (t : Z) : string := "2015-01-01_00.00.00".

Definition rooted (p : string) : string := "/" +:+ p.

Definition six_zeros (n : Z) : string := "000000".

Definition exists_already (p : string) : M unit := ret tt.




End RunDirFacts.

(** ** Invariants of generators *)

Module GenFacts.
Import Py Gen.

Section Sat.
Context {St A : Type}.
Variable P R : St -> Prop.
Variable E : exn -> St -> Prop.

(** What one call of [next] leaves: a state in [P] when it yields, a
    state in [R] when it returns, an exception and a state in [E] when it
    raises. *)
Definition step_sat (st : step St A) : Prop :=
  match st with
  | Yield _ s => P s
  | Return s => R s
  | Throw e s => E e s
  | Hang => False
  end.

Definition ending_sat (e : ending St) : Prop :=
  match e with
  | Suspended s => P s
  | Exhausted s => R s
  | Raised x s => E x s
  | Hung => False
  end.

Lemma pull_sat (next : St -> step St A) :
  (forall s, P s -> step_sat (next s)) ->
  forall n s, P s -> ending_sat (snd (pull n next s)).
Proof.
  intros Hstep. induction n as [|n IH]; intros s Hs; [exact Hs|].
  cbn [pull]. specialize (Hstep s Hs).
  destruct (next s) as [a s'|s'|e s'|]; simpl in *; try assumption.
  specialize (IH s' Hstep). destruct (pull n next s'). exact IH.
Qed.

End Sat.

(** Calls made after a first batch of calls continue from where the batch
    left the generator suspended. *)
Lemma pull_add {St A} (next : St -> step St A) : forall k m s ys s',
  pull k next s = (ys, Suspended s') ->
  pull (k + m) next s
  = (ys ++ fst (pull m next s'), snd (pull m next s')).
Proof.
  induction k as [|k IH]; intros m s ys s'.
  - intros [= <- <-]. simpl. destruct (pull m next s). reflexivity.
  - cbn [pull Nat.add].
    destruct (next s) as [a s1|s1|e s1|]; try discriminate.
    destruct (pull k next s1) as [l e] eqn:Hk.
    intros [= <- ->]. rewrite (IH m s1 l s' Hk). reflexivity.
Qed.

End GenFacts.

(** ** The load-balancing scheduler *)

Module ShuffleFacts.
Import Py Gen GenFacts WeightedChoice Shuffle.

(** [int] of a non-negative rational below [n] is a natural number below
    [n]. *)
Lemma int_range (q : Q) (n : Z) :
  (0 <= q)%Q -> (q < inject_Z n)%Q -> (0 <= int q < n)%Z.
Proof.
  destruct q as [a b]. unfold int, Qle, Qlt; simpl. intros Ha Hb.
  assert (0 <= a)%Z by lia.
  rewrite Z.quot_div_nonneg by lia. split.
  - apply Z.div_pos; lia.
  - apply Z.div_lt_upper_bound; lia.
Qed.

Lemma subscript_in_range {A} (l : list A) (j : Z) :
  (0 <= j < Z.of_nat (length l))%Z -> subscript l j = Some (Z.to_nat j).
Proof.
  intros Hj. unfold subscript.
  replace ((0 <=? j)%Z && (j <? Z.of_nat (length l))%Z) with true;
    [reflexivity|].
  symmetry. apply andb_true_iff. split; [apply Z.leb_le|apply Z.ltb_lt]; lia.
Qed.

Section Facts.
Context {T : Type} `{Countable T}.
Implicit Types (w : World T) (l : list T) (x y : nat).

(** A random source that gives values in [[0, 1)], as [random.random()]
    does. *)
Definition unit_interval (rng : nat -> Q) : Prop :=
  forall k, (0 <= rng k < 1)%Q.

(** [random.shuffle] leaves the clock, the random source and every other
    list object alone, whether it succeeds or not. *)
Lemma shuffle_down_frame i x : forall w r w',
  shuffle_down i x w = (r, w') ->
  clock w' = clock w /\ ticks w' = ticks w /\ rng w' = rng w
  /\ forall z, z <> x -> heap w' !! z = heap w !! z.
Proof.
  induction i as [|i IH]; intros w r w'; cbn [shuffle_down].
  - intros [= <- <-]. auto.
  - unfold random_random. cbv zeta. cbn [heap].
    destruct (heap w !! x) as [l|]; [|intros [= <- <-]; auto].
    destruct (subscript l _) as [jn|]; [|intros [= <- <-]; auto].
    destruct (l !! jn) as [xj|]; [|intros [= <- <-]; auto].
    destruct (l !! S i) as [xi|]; [|intros [= <- <-]; auto].
    intros Hd. apply IH in Hd as (Hc & Ht & Hr & Hh).
    repeat split; [exact Hc|exact Ht|exact Hr|].
    intros z Hz. rewrite (Hh z Hz). cbn [heap set_heap].
    apply lookup_insert_ne. congruence.
Qed.

(** With a random source in [[0, 1)], the swaps of [random.shuffle] stay in
    range and leave a permutation of the list. *)
Lemma shuffle_down_ok i x : forall w l,
  heap w !! x = Some l ->
  i <= length l - 1 ->
  unit_interval (rng w) ->
  exists l' w',
    shuffle_down i x w = (Ok tt, w')
    /\ heap w' !! x = Some l' /\ l' ≡ₚ l.
Proof.
  induction i as [|i IH]; intros w l Hx Hi Hrng; cbn [shuffle_down].
  - exists l, w. auto.
  - unfold random_random. cbv zeta. cbn [heap]. rewrite Hx.
    set (u := rng w (draws w)).
    assert (Hj : (0 <= int (u * inject_Z (Z.of_nat (S i + 1)))
                  < Z.of_nat (S i + 1))%Z).
    { destruct (Hrng (draws w)) as [Hu0 Hu1]. fold u in Hu0, Hu1.
      assert (0 < inject_Z (Z.of_nat (S i + 1)))%Q
        by (change 0%Q with (inject_Z 0); rewrite <- Zlt_Qlt; lia).
      apply int_range; nra. }
    set (j := int (u * inject_Z (Z.of_nat (S i + 1)))) in *.
    rewrite subscript_in_range by lia.
    destruct (lookup_lt_is_Some_2 l (Z.to_nat j)) as [xj Hxj]; [lia|].
    destruct (lookup_lt_is_Some_2 l (S i)) as [xi Hxi]; [lia|].
    rewrite Hxj, Hxi.
    destruct (IH (set_heap (<[x := <[Z.to_nat j := xi]> (<[S i := xj]> l)]>
                              (heap w))
                    {| heap := heap w; clock := clock w; ticks := ticks w;
                       rng := rng w; draws := S (draws w) |})
                 (<[Z.to_nat j := xi]> (<[S i := xj]> l)))
      as (l' & w' & Hd & Hl' & Hp).
    + cbn [heap set_heap]. apply lookup_insert_eq.
    + rewrite !length_insert. lia.
    + exact Hrng.
    + exists l', w'. split; [exact Hd|]. split; [exact Hl'|].
      rewrite Hp. apply Permutation_insert_swap; assumption.
Qed.

Definition not_created (s : state T) : Prop :=
  match s with
  | Created _ _ => False
  | _ => True
  end.

(** A call that leaves every list object of [w] as it was, and the
    generator past its creation. *)
Definition keeps_heap w (sw : state T * World T) : Prop :=
  not_created (fst sw)
  /\ forall z, is_Some (heap w !! z) -> heap (snd sw) !! z = heap w !! z.

Local Ltac frame_done :=
  unfold keeps_heap; cbn; split; [exact I|intros; reflexivity].

Lemma draw_frame tm w :
  step_sat (keeps_heap w) (keeps_heap w) (fun _ => keeps_heap w) (draw tm w).
Proof.
  unfold draw.
  destruct (weights (map_to_list tm)) as [choices|e]; [|frame_done].
  unfold random_random. cbv zeta.
  destruct (weighted_choice _ choices) as [test|e]; frame_done.
Qed.

Lemma first_pass_frame y idx tm repeat w :
  step_sat (keeps_heap w) (keeps_heap w) (fun _ => keeps_heap w)
    (first_pass y idx tm repeat w).
Proof.
  unfold first_pass.
  destruct (heap w !! y) as [l|]; [|frame_done].
  destruct (l !! idx) as [test|]; [frame_done|].
  destruct repeat; cbn [negb]; [apply draw_frame|frame_done].
Qed.

Lemma step_sat_weaken {St A} (P P' : St -> Prop) (E E' : exn -> St -> Prop)
    (st : step St A) :
  (forall s, P s -> P' s) -> (forall e s, E e s -> E' e s) ->
  step_sat P P E st -> step_sat P' P' E' st.
Proof. destruct st; simpl; auto. Qed.

Lemma copy_list_fresh x w l :
  heap w !! x = Some l ->
  exists y,
    heap w !! y = None
    /\ copy_list x w = (Ok y, set_heap (<[y := l]> (heap w)) w).
Proof.
  intros Hx. exists (fresh (dom (heap w))). split.
  - apply not_elem_of_dom, is_fresh.
  - unfold copy_list. rewrite Hx. reflexivity.
Qed.

(** One [next()] never hangs and changes no list object that existed
    before the call. *)
Lemma next_frame s w :
  step_sat (keeps_heap w) (keeps_heap w) (fun _ => keeps_heap w) (next (s, w)).
Proof.
  destruct s as [x repeat|y idx test start tm repeat|test start tm|];
    cbn [next].
  - destruct (heap w !! x) as [l|] eqn:Hx.
    + destruct (copy_list_fresh x w l Hx) as (y & Hy & ->).
      set (w1 := set_heap (<[y := l]> (heap w)) w).
      assert (Hw1 : forall z, is_Some (heap w !! z) ->
                               z <> y /\ heap w1 !! z = heap w !! z).
      { intros z [v Hz]. assert (z <> y) by congruence.
        split; [assumption|]. unfold w1; cbn [heap set_heap].
        apply lookup_insert_ne. congruence. }
      unfold random_shuffle.
      replace (heap w1 !! y) with (Some l)
        by (symmetry; apply lookup_insert_eq).
      destruct (shuffle_down (length l - 1) y w1) as [r w2] eqn:Hs.
      apply shuffle_down_frame in Hs as (_ & _ & _ & Hh).
      assert (Hw2 : forall z, is_Some (heap w !! z) ->
                               heap w2 !! z = heap w !! z).
      { intros z Hz. destruct (Hw1 z Hz) as [Hne Heq].
        rewrite (Hh z Hne). exact Heq. }
      assert (Hkeep : forall sw, keeps_heap w2 sw -> keeps_heap w sw).
      { intros sw [Hnc Hk]. split; [exact Hnc|]. intros z Hz.
        rewrite Hk by (rewrite Hw2 by exact Hz; exact Hz). apply Hw2, Hz. }
      destruct r as [[]|e]; [|split; [exact I|exact Hw2]].
      destruct (heap w2 !! y) as [l'|]; [|split; [exact I|exact Hw2]].
      eapply step_sat_weaken; [| |apply first_pass_frame]; auto.
    + unfold copy_list. rewrite Hx. frame_done.
  - unfold time_time. cbv zeta.
    destruct (record_run test _ tm) as [tm'|e]; [|frame_done].
    eapply step_sat_weaken; [| |apply first_pass_frame];
      unfold keeps_heap; simpl; auto.
  - unfold time_time. cbv zeta.
    destruct (record_run test _ tm) as [tm'|e]; [|frame_done].
    eapply step_sat_weaken; [| |apply draw_frame];
      unfold keeps_heap; simpl; auto.
  - frame_done.
Qed.

(** The list objects of [w] are what they were, in the world [sw] is in. *)
Definition same_lists w (sw : state T * World T) : Prop :=
  forall z, is_Some (heap w !! z) -> heap (snd sw) !! z = heap w !! z.

Lemma pull_same_lists w n s :
  ending_sat (same_lists w) (same_lists w) (fun _ => same_lists w)
    (snd (pull n next (s, w))).
Proof.
  apply pull_sat; [|intros z Hz; reflexivity].
  intros [s1 w1] Hsame.
  eapply step_sat_weaken; [| |apply next_frame];
    intros; cbv beta in *;
    match goal with
    | Hk : keeps_heap _ _ |- _ =>
      destruct Hk as [_ Hk]; intros z Hz;
      rewrite Hk by (rewrite Hsame by exact Hz; exact Hz);
      apply Hsame, Hz
    end.
Qed.

(** The list object at [x] still holds [l] where the calls ended. *)
Definition input_kept x l (e : ending (state T * World T)) : Prop :=
  match e with
  | Suspended (_, w') | Exhausted (_, w') | Raised _ (_, w') =>
    heap w' !! x = Some l
  | Hung => False
  end.

(** C10.  However many values are drawn from [shuffle(test_cases, repeat)],
    and however the drawing ends, the list object the caller passed holds
    the same elements in the same order: the generator permutes a copy. *)
Theorem shuffle_keeps_input (x : nat) (repeat : bool) (w : World T)
    (l : list T) (n : nat) :
  heap w !! x = Some l ->
  input_kept x l (snd (pull n next (shuffle x repeat, w))).
Proof.
  intros Hx. unfold input_kept.
  pose proof (pull_same_lists w n (shuffle x repeat)) as Hsat.
  destruct (snd (pull n next (shuffle x repeat, w)))
    as [[s' w']|[s' w']|e [s' w']|]; simpl in Hsat;
    try (rewrite <- Hx; apply Hsat; rewrite Hx; eauto).
  exact Hsat.
Qed.

(** Every test of the list has a timing entry. *)
Definition has_keys (tm : gmap T (Q * Z)) l : Prop :=
  forall k, k ∈ l -> is_Some (tm !! k).

Lemma initial_timings_from l k : forall (m : gmap T (Q * Z)),
  fold_left (fun m test => <[test := (0%Q, 0%Z)]> m) l m !! k
  = if decide (k ∈ l) then Some (0%Q, 0%Z) else m !! k.
Proof.
  induction l as [|a l IH]; intros m; cbn [fold_left].
  - rewrite decide_False by apply not_elem_of_nil. reflexivity.
  - rewrite IH. destruct (decide (k ∈ l)) as [Hin|Hnin].
    + rewrite decide_True by (right; exact Hin). reflexivity.
    + destruct (decide (k = a)) as [->|Hne].
      * rewrite decide_True by left. apply lookup_insert_eq.
      * rewrite decide_False
          by (intros Hc; apply elem_of_cons in Hc as [?|?]; contradiction).
        apply lookup_insert_ne. congruence.
Qed.

Lemma initial_timings_lookup l k :
  initial_timings l !! k = if decide (k ∈ l) then Some (0%Q, 0%Z) else None.
Proof.
  unfold initial_timings. rewrite initial_timings_from, lookup_empty.
  reflexivity.
Qed.

Lemma record_run_ok test d (tm : gmap T (Q * Z)) total count :
  tm !! test = Some (total, count) ->
  record_run test d tm
  = Ok (<[test := ((total + d)%Q, (count + 1)%Z)]> tm).
Proof. intros Htm. unfold record_run. rewrite Htm. reflexivity. Qed.

Lemma has_keys_insert (tm : gmap T (Q * Z)) l test e :
  has_keys tm l -> has_keys (<[test := e]> tm) l.
Proof.
  intros Hk k Hin. destruct (decide (test = k)) as [->|Hne].
  - rewrite lookup_insert_eq. eauto.
  - rewrite lookup_insert_ne by exact Hne. apply Hk, Hin.
Qed.

(** The first call: the copy is shuffled into a permutation [l'] of the
    list, stored at a new location [y]; the generator goes on to the first
    [for] loop. *)
Lemma next_created x w l :
  heap w !! x = Some l ->
  unit_interval (rng w) ->
  exists y l' w2,
    l' ≡ₚ l
    /\ heap w2 !! y = Some l'
    /\ clock w2 = clock w /\ ticks w2 = ticks w /\ rng w2 = rng w
    /\ forall repeat,
         next (Created x repeat, w)
         = first_pass y 0 (initial_timings l') repeat w2.
Proof.
  intros Hx Hrng.
  destruct (copy_list_fresh x w l Hx) as (y & Hy & Hcopy).
  set (w1 := set_heap (<[y := l]> (heap w)) w) in *.
  assert (Hy1 : heap w1 !! y = Some l) by apply lookup_insert_eq.
  destruct (shuffle_down_ok (length l - 1) y w1 l Hy1)
    as (l' & w2 & Hs & Hl' & Hp); [lia|exact Hrng|].
  exists y, l', w2.
  pose proof (shuffle_down_frame _ _ _ _ _ Hs) as (Hc & Ht & Hr & _).
  repeat split; try assumption.
  intros repeat. cbn [next]. rewrite Hcopy.
  unfold random_shuffle. rewrite Hy1, Hs, Hl'. reflexivity.
Qed.

(** Inside the first [for] loop: [k] more calls yield the next [k]
    elements of the shuffled copy. *)
Lemma pull_first_pass repeat y l' :
  forall k idx test start (tm : gmap T (Q * Z)) w',
  heap w' !! y = Some l' ->
  l' !! idx = Some test ->
  has_keys tm l' ->
  S idx + k <= length l' ->
  exists test' start' (tm' : gmap T (Q * Z)) w'',
    pull k next (FirstPass y idx test start tm repeat, w')
    = (take k (drop (S idx) l'),
       Suspended (FirstPass y (idx + k) test' start' tm' repeat, w''))
    /\ heap w'' !! y = Some l'
    /\ l' !! (idx + k) = Some test'
    /\ has_keys tm' l'.
Proof.
  induction k as [|k IH]; intros idx test start tm w' Hy Hidx Hkeys Hlen.
  - exists test, start, tm, w'. rewrite Nat.add_0_r. auto.
  - destruct (Hkeys test) as [[total count] Htm];
      [apply list_elem_of_lookup; eauto|].
    destruct (lookup_lt_is_Some_2 l' (S idx)) as [test2 Hidx2]; [lia|].
    cbn [pull next]. unfold time_time. cbv zeta.
    rewrite (record_run_ok _ _ _ _ _ Htm).
    unfold first_pass. cbn [heap]. rewrite Hy, Hidx2.
    unfold time_time. cbv zeta. cbn [clock ticks heap rng draws].
    match goal with
    | |- context [pull k next
                    (FirstPass y (S idx) test2 ?st ?tm1 repeat, ?w1)] =>
      destruct (IH (S idx) test2 st tm1 w1)
        as (test' & start' & tm' & w'' & Hpull & Hy' & Hidx' & Hkeys')
    end.
    + exact Hy.
    + exact Hidx2.
    + apply has_keys_insert, Hkeys.
    + lia.
    + rewrite Hpull. exists test', start', tm', w''.
      replace (idx + S k) with (S idx + k) by lia.
      rewrite (drop_S l' test2 (S idx) Hidx2). auto.
Qed.

(** After the last element, without [repeat], the generator returns. *)
Lemma next_last_no_repeat y l' idx test start (tm : gmap T (Q * Z)) w' :
  heap w' !! y = Some l' ->
  l' !! idx = Some test ->
  has_keys tm l' ->
  S idx = length l' ->
  exists w'', next (FirstPass y idx test start tm false, w')
              = Return (Finished, w'').
Proof.
  intros Hy Hidx Hkeys Hlen.
  destruct (Hkeys test) as [[total count] Htm];
    [apply list_elem_of_lookup; eauto|].
  cbn [next]. unfold time_time. cbv zeta.
  rewrite (record_run_ok _ _ _ _ _ Htm).
  unfold first_pass. cbn [heap]. rewrite Hy.
  rewrite (lookup_ge_None_2 l' (S idx)) by lia.
  eexists. reflexivity.
Qed.

Lemma has_keys_initial l : has_keys (initial_timings l) l.
Proof.
  intros k Hin. rewrite initial_timings_lookup, decide_True by exact Hin.
  eauto.
Qed.

(** The first [length l] calls yield the shuffled copy and leave the
    generator suspended at its last element. *)
Lemma pull_whole_pass x w l y l' w2 repeat :
  l' ≡ₚ l ->
  heap w2 !! y = Some l' ->
  next (Created x repeat, w)
  = first_pass y 0 (initial_timings l') repeat w2 ->
  exists e,
    pull (length l) next (shuffle x repeat, w) = (l', Suspended e)
    /\ (l' = [] -> e = (Created x repeat, w))
    /\ (l' <> [] ->
        exists test start (tm : gmap T (Q * Z)) w'',
          e = (FirstPass y (length l - 1) test start tm repeat, w'')
          /\ heap w'' !! y = Some l'
          /\ l' !! (length l - 1) = Some test
          /\ has_keys tm l').
Proof.
  intros Hp Hy Hnext.
  pose proof (Permutation_length Hp) as Hlen. rewrite <- Hlen.
  destruct l' as [|t0 r].
  - eexists. split; [reflexivity|]. split; [reflexivity|congruence].
  - cbn [length pull]. unfold shuffle. rewrite Hnext.
    unfold first_pass. rewrite Hy. cbn [lookup list_lookup].
    unfold time_time. cbv zeta.
    match goal with
    | |- context [pull _ next (FirstPass y 0 t0 ?st ?tm repeat, ?w1)] =>
      destruct (pull_first_pass repeat y (t0 :: r) (length r) 0 t0 st tm w1)
        as (test' & start' & tm' & w'' & Hpull & Hy' & Hidx' & Hkeys')
    end.
    + exact Hy.
    + reflexivity.
    + apply has_keys_initial.
    + simpl. lia.
    + rewrite Hpull. change (drop 1 (t0 :: r)) with r.
      rewrite firstn_all.
      eexists. split; [reflexivity|]. split; [discriminate|].
      intros _. exists test', start', tm', w''.
      replace (S (length r) - 1) with (0 + length r) by lia. auto.
Qed.

(** C4.  For a list of distinct test cases and a random source in
    [[0, 1)]: the first [N = length l] values that [shuffle] yields are a
    permutation of the list, each test case once, so that sorted they
    equal the sorted list; and without [repeat] the call after them ends
    the generator. *)
Theorem shuffle_first_pass (x : nat) (w : World T) (l : list T) :
  heap w !! x = Some l ->
  unit_interval (rng w) ->
  NoDup l ->
  exists l',
    (forall repeat, yields (length l) next (shuffle x repeat, w) = l')
    /\ l' ≡ₚ l
    /\ NoDup l'
    /\ (forall t, t ∈ l' <-> t ∈ l)
    /\ (forall (R : relation T) (dec : forall a b, Decision (R a b)),
          Total R -> Transitive R -> AntiSymm eq R ->
          merge_sort R l' = merge_sort R l)
    /\ exists sw,
         pull (S (length l)) next (shuffle x false, w) = (l', Exhausted sw).
Proof.
  intros Hx Hrng Hnd.
  destruct (next_created x w l Hx Hrng)
    as (y & l' & w2 & Hp & Hy & _ & _ & _ & Hnext).
  exists l'. split; [|split; [exact Hp|split; [|split; [|split]]]].
  - intros repeat.
    destruct (pull_whole_pass x w l y l' w2 repeat Hp Hy (Hnext repeat))
      as (e & Hpull & _).
    unfold yields. rewrite Hpull. reflexivity.
  - rewrite Hp. exact Hnd.
  - intros t. rewrite Hp. reflexivity.
  - intros R dec Htot Htrans Hanti.
    apply (StronglySorted_unique R).
    + apply StronglySorted_merge_sort; assumption.
    + apply StronglySorted_merge_sort; assumption.
    + rewrite !merge_sort_Permutation. exact Hp.
  - destruct (pull_whole_pass x w l y l' w2 false Hp Hy (Hnext false))
      as (e & Hpull & Hnil & Hcons).
    replace (S (length l)) with (length l + 1) by lia.
    rewrite (pull_add next _ 1 _ _ _ Hpull).
    destruct l' as [|t0 r].
    + rewrite (Hnil eq_refl). cbn [pull]. rewrite (Hnext false).
      unfold first_pass. rewrite Hy. cbn [lookup list_lookup negb].
      eexists. reflexivity.
    + destruct Hcons as (test & start & tm & w'' & -> & Hy' & Hidx & Hkeys);
        [discriminate|].
      destruct (next_last_no_repeat y (t0 :: r) _ test start tm w''
                  Hy' Hidx Hkeys) as [w3 Hret].
      { pose proof (Permutation_length Hp) as Hl. simpl in *. lia. }
      cbn [pull]. rewrite Hret. cbn [fst snd]. rewrite app_nil_r.
      eexists. reflexivity.
Qed.














Section Reached.
Variables (x : nat) (w : World T) (l : list T).
Hypothesis Hrng : unit_interval (rng w).
Hypothesis Hclock : forall k, (clock w k < clock w (S k))%Q.




End Reached.

(** The timing table of a suspended generator. *)
Definition timings_of (s : state T) : gmap T (Q * Z) :=
  match s with
  | FirstPass _ _ _ _ tm _ | Draws _ _ tm => tm
  | _ => ∅
  end.




End Facts.

(** Three tests in a list object at location 0, a clock that advances by
    one at every reading and a random source stuck at one half. *)
Definition steady_world : World Z :=
  {| heap := {[ 0 := [1; 2; 3]%Z ]};
     clock := fun k => inject_Z (Z.of_nat k); ticks := 0;
     rng := fun _ => (1 # 2)%Q; draws := 0 |}.


Lemma steady_unit_interval : unit_interval (rng steady_world).
Proof. intros k. simpl. split; lra. Qed.


(** The first-pass theorem at [steady_world]. *)
Lemma shuffle_first_pass_witness :
  exists l', yields 3 next (shuffle 0 true, steady_world) = l'
             /\ l' ≡ₚ [1; 2; 3]%Z
             /\ exists sw, pull 4 next (shuffle 0 false, steady_world)
                           = (l', Exhausted sw).
Proof.
  destruct (shuffle_first_pass 0 steady_world [1; 2; 3]%Z)
    as (l' & Hy & Hp & _ & _ & _ & Hend).
  - reflexivity.
  - exact steady_unit_interval.
  - apply (bool_decide_unpack _). vm_compute. exact I.
  - exists l'. split; [apply (Hy true)|]. split; [exact Hp|exact Hend].
Defined.


(** The frame theorem at [steady_world], seven calls. *)
Lemma shuffle_keeps_input_witness :
  input_kept 0 [1; 2; 3]%Z
    (snd (pull 7 next (shuffle 0 true, steady_world))).
Proof.
  apply (shuffle_keeps_input 0 true steady_world [1; 2; 3]%Z 7).
  reflexivity.
Defined.


End ShuffleFacts.

(** ** Command-line tests *)

Module ArgsFacts.
Import Py Args.

Section ListSplit.
Context {A : Type} `{EqDecision A}.
Implicit Types (l cur s : list A) (v : A) (out pieces : list (list A)).

(** What [listsplit] adds to [out] from the rest [l] of the list and the
    sublist [cur] in progress. *)
Fixpoint groups l v cur : list (list A) :=
  match l with
  | [] => append_if_nonempty [] cur
  | x :: rest =>
    if decide (x = v) then append_if_nonempty [] cur ++ groups rest v []
    else groups rest v (cur ++ [x])
  end.

(** The pieces joined with the separator, as [v.join(pieces)] would. *)
Fixpoint join v pieces : list A :=
  match pieces with
  | [] => []
  | [s] => s
  | s :: rest => s ++ v :: join v rest
  end.

(** A sublist that [listsplit] can return: not empty, and free of the
    separator. *)
Definition piece v s : Prop := s <> [] /\ v ∉ s.

Lemma append_if_nonempty_app out cur :
  append_if_nonempty out cur = out ++ append_if_nonempty [] cur.
Proof. destruct cur; simpl; [rewrite app_nil_r|]; reflexivity. Qed.

Lemma listsplit_loop_groups l v : forall out cur,
  (let (out', cur') := listsplit_loop l v out cur in
   append_if_nonempty out' cur') = out ++ groups l v cur.
Proof.
  induction l as [|x rest IH]; intros out cur; cbn [listsplit_loop groups].
  - apply append_if_nonempty_app.
  - destruct (decide (x = v)) as [->|Hne].
    + rewrite IH, (append_if_nonempty_app out cur), app_assoc. reflexivity.
    + apply IH.
Qed.

Lemma listsplit_groups l v : listsplit l v = groups l v [].
Proof. unfold listsplit. apply (listsplit_loop_groups l v [] []). Qed.

Lemma groups_pieces l v : forall cur,
  v ∉ cur -> Forall (piece v) (groups l v cur).
Proof.
  induction l as [|x rest IH]; intros cur Hcur; cbn [groups].
  - destruct cur; simpl; [constructor|].
    constructor; [split; [discriminate|exact Hcur]|constructor].
  - destruct (decide (x = v)) as [->|Hne].
    + apply Forall_app. split; [|apply IH, not_elem_of_nil].
      destruct cur; simpl; [constructor|].
      constructor; [split; [discriminate|exact Hcur]|constructor].
    + apply IH. rewrite elem_of_app, list_elem_of_singleton.
      intros [?|?]; [contradiction|congruence].
Qed.

Lemma groups_concat l v : forall cur,
  concat (groups l v cur) = cur ++ filter (fun x => x <> v) l.
Proof.
  induction l as [|x rest IH]; intros cur; cbn [groups].
  - rewrite filter_nil, app_nil_r. destruct cur; simpl;
      [reflexivity|rewrite app_nil_r; reflexivity].
  - rewrite filter_cons. destruct (decide (x = v)) as [->|Hne].
    + rewrite decide_False by (intros Hc; apply Hc; reflexivity).
      rewrite concat_app, IH. destruct cur; simpl;
        [reflexivity|rewrite app_nil_r; reflexivity].
    + rewrite decide_True by exact Hne.
      rewrite IH, <- app_assoc. reflexivity.
Qed.

Lemma groups_skip s v : v ∉ s -> forall l cur,
  groups (s ++ l) v cur = groups l v (cur ++ s).
Proof.
  induction s as [|x s IH]; intros Hs l cur.
  - rewrite app_nil_r. reflexivity.
  - apply not_elem_of_cons in Hs as [Hx Hs]. cbn [app groups].
    rewrite decide_False by congruence.
    rewrite (IH Hs), <- app_assoc. reflexivity.
Qed.

Lemma listsplit_groups_pieces l v :
  Forall (piece v) (listsplit l v)
  /\ concat (listsplit l v) = filter (fun x => x <> v) l.
Proof.
  rewrite listsplit_groups. split.
  - apply groups_pieces, not_elem_of_nil.
  - apply groups_concat.
Qed.

(** [listsplit] returns sublists that are not empty and hold no
    separator, and together they are the list without its separators, in
    order. *)
Theorem listsplit_pieces l v :
  Forall (piece v) (listsplit l v)
  /\ concat (listsplit l v) = filter (fun x => x <> v) l.
Proof. exact (listsplit_groups_pieces l v). Qed.

(** [listsplit] undoes [join]: splitting the join of non-empty,
    separator-free pieces gives the pieces back. *)
Theorem listsplit_join v pieces :
  Forall (piece v) pieces -> listsplit (join v pieces) v = pieces.
Proof.
  rewrite listsplit_groups.
  induction pieces as [|s rest IH]; intros Hall; [reflexivity|].
  inversion Hall as [|? ? [Hne Hs] Hrest]; subst.
  destruct rest as [|s' rest].
  - cbn [join]. pose proof (groups_skip s v Hs [] []) as Hskip.
    rewrite app_nil_r in Hskip. rewrite Hskip. cbn [groups app].
    destruct s; [congruence|reflexivity].
  - change (join v (s :: s' :: rest)) with (s ++ v :: join v (s' :: rest)).
    rewrite (groups_skip s v Hs). cbn [groups app].
    rewrite decide_True by reflexivity. rewrite (IH Hrest).
    destruct s; [congruence|reflexivity].
Qed.

Lemma listsplit_only_separators l v :
  listsplit l v = [] <-> Forall (fun x => x = v) l.
Proof.
  destruct (listsplit_groups_pieces l v) as [Hpieces Hconcat]. split.
  - intros Hnil. rewrite Hnil in Hconcat. simpl in Hconcat.
    apply Forall_forall. intros x Hx.
    destruct (decide (x = v)) as [->|Hne]; [reflexivity|].
    assert (Hin : x ∈ filter (fun x => x <> v) l)
      by (apply list_elem_of_filter; auto).
    rewrite <- Hconcat in Hin. inversion Hin.
  - intros Hall. destruct (listsplit l v) as [|s rest]; [reflexivity|].
    inversion Hpieces as [|? ? [Hne Hs] _]; subst.
    destruct s as [|x s]; [congruence|].
    assert (Hin : x ∈ filter (fun x => x <> v) l).
    { rewrite <- Hconcat. simpl. left. }
    apply list_elem_of_filter in Hin as [Hxv Hxl].
    rewrite Forall_forall in Hall. specialize (Hall x Hxl). contradiction.
Qed.

(** [listsplit] returns no sublist at all exactly when the list holds
    nothing but separators (the empty list included). *)
Theorem listsplit_nil_iff l v :
  listsplit l v = [] <-> Forall (fun x => x = v) l.
Proof. exact (listsplit_only_separators l v). Qed.

End ListSplit.

(** The theorem on joins at two pieces of command-line words. *)
Lemma listsplit_join_witness :
  listsplit ["a.py"; "--"; "b.py"; "x"] dashes = [["a.py"]; ["b.py"; "x"]].
Proof.
  apply (listsplit_join dashes [["a.py"]; ["b.py"; "x"]]).
  repeat constructor; try discriminate;
    intros Hin; repeat (apply elem_of_cons in Hin as [Hin|Hin];
                        [discriminate|]); inversion Hin.
Defined.

(** The words of a test: its name, then its arguments. *)
Definition words (t : string * list string) : list string := fst t :: snd t.

Lemma to_tests_pieces gs :
  Forall (piece dashes) gs ->
  exists tests, to_tests gs = Ok tests /\ map words tests = gs.
Proof.
  induction gs as [|g rest IH]; intros Hall; [exists []; auto|].
  inversion Hall as [|? ? [Hne _] Hrest]; subst.
  destruct (IH Hrest) as (tests & Htests & Hmap).
  destruct g as [|name args]; [congruence|].
  cbn [to_tests]. rewrite Htests.
  exists ((name, args) :: tests). split; [reflexivity|].
  simpl. rewrite Hmap. reflexivity.
Qed.

(** [parse_test_args] never raises; the tests it returns, written out as
    name and arguments, are the command-line words without the [--]
    separators, in order; no test is named [--] or has it as an argument. *)
Theorem parse_test_args_total (args : list string) :
  exists tests,
    parse_test_args args = Ok tests
    /\ concat (map words tests) = filter (fun x => x <> dashes) args
    /\ Forall (fun t => dashes ∉ words t) tests.
Proof.
  unfold parse_test_args. destruct (bool_decide_reflect (dashes ∈ args))
    as [Hin|Hnin].
  - destruct (listsplit_groups_pieces args dashes) as [Hpieces Hconcat].
    destruct (to_tests_pieces _ Hpieces) as (tests & -> & Hmap).
    exists tests. split; [reflexivity|]. split.
    + rewrite Hmap. exact Hconcat.
    + rewrite <- Hmap, List.Forall_map in Hpieces.
      eapply List.Forall_impl; [|exact Hpieces]. intros t [_ Ht]. exact Ht.
  - exists (map (fun x => (x, [])) args). split; [reflexivity|].
    induction args as [|x rest IH]; [split; [reflexivity|constructor]|].
    apply not_elem_of_cons in Hnin as [Hx Hrest].
    destruct (IH Hrest) as [IHc IHf]. split.
    + simpl. rewrite IHc, filter_cons, decide_True by congruence.
      reflexivity.
    + constructor; [|exact IHf]. unfold words; simpl.
      rewrite list_elem_of_singleton. exact Hx.
Qed.

(** [parse_test_args] returns no test exactly when every word is [--]
    (no word at all included); [main] then fails on [test_cases[0]]. *)
Theorem parse_test_args_no_test (args : list string) :
  parse_test_args args = Ok [] <-> Forall (fun x => x = dashes) args.
Proof.
  unfold parse_test_args. destruct (bool_decide_reflect (dashes ∈ args))
    as [Hin|Hnin].
  - rewrite <- listsplit_only_separators.
    destruct (listsplit_groups_pieces args dashes) as [Hpieces _].
    destruct (to_tests_pieces _ Hpieces) as (tests & -> & Hmap).
    rewrite <- Hmap. split.
    + intros [= ->]. reflexivity.
    + destruct tests; [reflexivity|discriminate].
  - destruct args as [|x rest]; [split; [constructor|reflexivity]|].
    split; [discriminate|]. intros Hall.
    inversion Hall as [|? ? Hx _]; subst. exfalso. apply Hnin. left.
Qed.

(** The examples in the docstrings of [listsplit] and [parse_test_args]. *)
Theorem docstring_examples :
  listsplit ["test 1"; "--"; "test 2"; "arg1"; "--"; "test3"] dashes
  = [["test 1"]; ["test 2"; "arg1"]; ["test3"]]
  /\ parse_test_args ["test 1.py"; "test2.py"; "test3.py"]
     = Ok [("test 1.py", []); ("test2.py", []); ("test3.py", [])]
  /\ parse_test_args ["test1.py"; "test2.py"]
     = Ok [("test1.py", []); ("test2.py", [])]
  /\ parse_test_args ["test1.py"; "--"] = Ok [("test1.py", [])]
  /\ parse_test_args ["test1.py"; "--"; "test2.py"]
     = Ok [("test1.py", []); ("test2.py", [])]
  /\ parse_test_args ["test1.py"; "--"; "test2.py"; "--"]
     = Ok [("test1.py", []); ("test2.py", [])]
  /\ parse_test_args
       ["test1.py"; "arg1"; "arg2"; "--"; "test2.py"; "arg"; "--"; "test3.py"]
     = Ok [("test1.py", ["arg1"; "arg2"]); ("test2.py", ["arg"]);
           ("test3.py", [])].
Proof. repeat split; vm_compute; reflexivity. Qed.

End ArgsFacts.

(** ** Git information *)

Module GitFacts.
Import Py Git.

Section Facts.
Variable check_output : string -> list string -> result string.
Variable strip : string -> string.

(** The three commands, in the order they are run. *)
Definition commands : list (list string) :=
  [describe; rev_parse_head; show_toplevel].

Lemma read_git_info_try_cases testdir :
  match read_git_info_try check_output strip testdir with
  | Ok info =>
    exists c sha top,
      check_output testdir describe = Ok c
      /\ check_output testdir rev_parse_head = Ok sha
      /\ check_output testdir show_toplevel = Ok top
      /\ info = {| commit := strip c; commit_sha := strip sha;
                   git_dir := strip top |}
  | Raise e => exists cmd, In cmd commands /\ check_output testdir cmd = Raise e
  end.
Proof.
  unfold read_git_info_try, git, bind, commands.
  destruct (check_output testdir describe) as [c|e] eqn:H1;
    [|exists describe; simpl; auto].
  destruct (check_output testdir rev_parse_head) as [sha|e] eqn:H2;
    [|exists rev_parse_head; simpl; auto].
  destruct (check_output testdir show_toplevel) as [top|e] eqn:H3;
    [|exists show_toplevel; simpl; auto].
  exists c, sha, top. auto.
Qed.

(** [read_git_info] gives the stripped outputs when the three git
    commands succeed; it gives [None] when one of them fails with
    [CalledProcessError] or cannot be started for [ENOENT]; any other
    exception of a command is raised, so it never raises
    [CalledProcessError] or [OSError(ENOENT)]. *)
Theorem read_git_info_errors testdir :
  match read_git_info check_output strip testdir with
  | Ok (Some info) =>
    exists c sha top,
      check_output testdir describe = Ok c
      /\ check_output testdir rev_parse_head = Ok sha
      /\ check_output testdir show_toplevel = Ok top
      /\ info = {| commit := strip c; commit_sha := strip sha;
                   git_dir := strip top |}
  | Ok None =>
    exists cmd e,
      In cmd commands /\ check_output testdir cmd = Raise e
      /\ (e = CalledProcessError \/ e = OSError ENOENT)
  | Raise e =>
    e <> CalledProcessError /\ e <> OSError ENOENT
    /\ exists cmd, In cmd commands /\ check_output testdir cmd = Raise e
  end.
Proof.
  unfold read_git_info.
  pose proof (read_git_info_try_cases testdir) as Htry.
  destruct (read_git_info_try check_output strip testdir) as [info|e];
    [exact Htry|].
  destruct Htry as (cmd & Hin & Hcmd).
  destruct (is_CalledProcessError e) eqn:Hcpe.
  - exists cmd, e. split; [exact Hin|]. split; [exact Hcmd|]. left.
    destruct e; try discriminate. simpl in Hcpe.
    apply String.eqb_eq in Hcpe. subst. reflexivity.
  - assert (Hne : e <> CalledProcessError).
    { intros ->. discriminate. }
    destruct e as [| | | | |en|]; try (split; [exact Hne|];
      split; [discriminate|]; exists cmd; auto).
    destruct en; try (split; [exact Hne|];
      split; [discriminate|]; exists cmd; auto).
    exists cmd, (OSError ENOENT). auto.
Qed.

End Facts.

End GitFacts.

(** ** The batch controller, over the whole loop *)

Module ControllerLoopFacts.
Import Py Controller.
Local Open Scope Z_scope.

(** The statuses after which the loop goes on when no sentinel is
    found. *)
Definition tolerated (keep_going : option Z) (e : Z) : Prop :=
  e = 0 \/ (e >= 2 /\ level keep_going >= 1) \/ level keep_going >= 2.

Lemma loop_body_log kg it st log st' log' flow :
  loop_body kg it st log = Ok (st', log', flow) ->
  (log' = log /\ st' = st /\ flow = Break /\ term_count it > 0)
  \/ (exists e, run it = Ok e /\ log' = log ++ [e] /\ term_count it <= 0
                /\ (flow = Continue ->
                    tolerated kg e /\ unrecoverable_error it = false)
                /\ (unrecoverable_error it = false -> tolerated kg e ->
                    flow = Continue)).
Proof.
  unfold loop_body, tolerated, gt, ge, level.
  destruct (Z.gtb_spec (term_count it) 0) as [Htc|Htc].
  - intros [= <- <- <-]. left. repeat split; lia.
  - destruct (run it) as [e|]; [|discriminate].
    intros Hbody. right. exists e. split; [reflexivity|].
    destruct (unrecoverable_error it).
    + injection Hbody as <- <- <-.
      repeat split; try lia; try discriminate.
    + destruct (Z.eqb_spec e 0) as [He|Hne].
      * injection Hbody as <- <- <-. repeat split; auto; lia.
      * destruct kg as [k|]; simpl in Hbody;
          repeat match type of Hbody with
                 | context [if ?b then _ else _] => destruct b eqn:?
                 end;
          injection Hbody as <- <- <-;
          rewrite ?andb_true_iff, ?andb_false_iff, ?Z.geb_leb, ?Z.gtb_ltb,
            ?Z.leb_le, ?Z.ltb_lt, ?Z.leb_gt, ?Z.ltb_ge in *;
          (split; [reflexivity|]); (split; [lia|]);
          (split; [intros Hf;
                   first [discriminate Hf|split; [lia|reflexivity]]
                  |intros _ Htol; first [reflexivity|exfalso; lia]]).
Qed.

Lemma main_loop_log (keep_going : option Z)
    (its : list Iteration) (st st' : BatchState) (log log' : list Z) :
  main_loop keep_going its st log = Ok (st', log') ->
  exists new,
    log' = log ++ new
    /\ forall i e, (S i < length new)%nat -> new !! i = Some e ->
         tolerated keep_going e.
Proof.
  revert st log. induction its as [|it rest IH]; intros st log; simpl.
  - intros [= <- <-]. exists []. split; [rewrite app_nil_r; reflexivity|].
    intros i e Hi. simpl in Hi. lia.
  - destruct (loop_body keep_going it st log) as [[[st1 log1] flow]|] eqn:Hb;
      [|discriminate].
    apply loop_body_log in Hb
      as [(-> & -> & -> & _)|(e & _ & -> & _ & Hcont & _)].
    + intros [= <- <-]. exists []. split; [rewrite app_nil_r; reflexivity|].
      intros i e Hi. simpl in Hi. lia.
    + destruct flow.
      * intros Hrest. apply IH in Hrest as (new & -> & Hnew).
        exists (e :: new). split; [rewrite <- app_assoc; reflexivity|].
        intros [|i] e' Hi Hlook.
        -- injection Hlook as <-. apply Hcont. reflexivity.
        -- simpl in Hi, Hlook. apply (Hnew i); [lia|exact Hlook].
      * intros [= <- <-]. exists [e]. split; [reflexivity|].
        intros i e' Hi. simpl in Hi. lia.
Qed.

(** Over the whole loop: the log grows by the runs executed, and every
    run but the last one had a tolerated status, since the loop went on
    after it. *)
Theorem continued_runs_tolerated (keep_going : option Z)
    (its : list Iteration) (st st' : BatchState) (log log' : list Z) :
  main_loop keep_going its st log = Ok (st', log') ->
  exists new,
    log' = log ++ new
    /\ forall i e, (S i < length new)%nat -> new !! i = Some e ->
         tolerated keep_going e.
Proof. exact (main_loop_log keep_going its st st' log log'). Qed.

(** Without [-k] the batch stops at the first run that fails: [main]'s
    failure count is at most one. *)
Theorem no_keep_going_one_failure (keep_going : option Z)
    (its : list Iteration) (st : BatchState) (log : list Z) :
  level keep_going < 1 ->
  main_loop keep_going its initial [] = Ok (st, log) ->
  0 <= failure_count st <= 1
  /\ forall i e, (S i < length log)%nat -> log !! i = Some e -> e = 0.
Proof.
  intros Hlevel Hmain.
  destruct (main_loop_log _ _ _ _ _ _ Hmain) as (new & Hlog & Hnew).
  simpl in Hlog. subst new.
  assert (Hzero : forall i e, (S i < length log)%nat ->
                              log !! i = Some e -> e = 0).
  { intros i e Hi Hlook.
    destruct (Hnew i e Hi Hlook) as [?|[[? ?]|?]]; lia. }
  split; [|exact Hzero].
  destruct (ControllerFacts.main_loop_describes _ _ _ _ _ _
              ControllerFacts.describes_initial Hmain) as (_ & Hf & _).
  rewrite Hf. clear Hmain Hf Hnew.
  assert (Hlen : (length (ControllerFacts.failures log) <= 1)%nat); [|lia].
  induction log as [|e log IH]; [simpl; lia|].
  destruct log as [|e' log].
  - unfold ControllerFacts.failures. simpl. destruct (negb (e =? 0)); simpl; lia.
  - assert (e = 0) by (apply (Hzero 0%nat); [simpl; lia|reflexivity]).
    subst e. unfold ControllerFacts.failures in *.
    cbn [List.filter Z.eqb negb]. apply IH.
    intros i e Hi Hlook. apply (Hzero (S i)); [simpl in *; lia|exact Hlook].
Qed.

(** An interrupt seen at the top of the loop stops the batch before the
    next run is started: no counter changes and no later test is run,
    whatever the keep-going level. *)
Theorem interrupt_stops_before_run (keep_going : option Z) (it : Iteration)
    (rest : list Iteration) (st : BatchState) (log : list Z) :
  term_count it > 0 ->
  main_loop keep_going (it :: rest) st log = Ok (st, log).
Proof.
  intros Htc. cbn [main_loop]. unfold loop_body.
  replace (term_count it >? 0) with true by (symmetry; apply Z.gtb_lt; lia).
  reflexivity.
Qed.

(** The exit statuses of the runs that complete. *)
Definition statuses (its : list Iteration) : list Z :=
  omap (fun it => match run it with Ok e => Some e | Raise _ => None end) its.

(** A run that completes with no interrupt pending before it and no
    sentinel after it. *)
Definition undisturbed (it : Iteration) : Prop :=
  term_count it <= 0 /\ unrecoverable_error it = false
  /\ exists e, run it = Ok e.

Lemma main_loop_undisturbed (k : Z) (its : list Iteration) :
  k >= 2 ->
  Forall undisturbed its ->
  forall st log, exists st',
    main_loop (Some k) its st log = Ok (st', log ++ statuses its).
Proof.
  intros Hk. induction its as [|it rest IH]; intros Hall st log.
  - exists st. simpl. rewrite app_nil_r. reflexivity.
  - inversion Hall as [|? ? (Htc & Hsent & e & He) Hrest]; subst.
    destruct (loop_body (Some k) it st log) as [[[st1 log1] flow]|] eqn:Hb.
    + pose proof Hb as Hb'.
      apply loop_body_log in Hb'
        as [(_ & _ & _ & Hgt)|(e' & He' & -> & _ & _ & Hgo)]; [lia|].
      rewrite He in He'. injection He' as <-.
      rewrite (Hgo Hsent) in Hb
        by (right; right; unfold level; lia).
      destruct (IH Hrest st1 (log ++ [e])) as [st' Hrest'].
      exists st'. cbn [main_loop]. rewrite Hb, Hrest'.
      unfold statuses. cbn [omap list_omap]. rewrite He.
      rewrite <- app_assoc. reflexivity.
    + exfalso. revert Hb. unfold loop_body. rewrite He.
      repeat match goal with
             | |- context [if ?b then _ else _] => destruct b
             end; discriminate.
Qed.

(** With [-k] given twice the loop runs every test the generator yields,
    whatever the exit statuses, as long as runs complete, no interrupt
    arrives and no sentinel appears. *)
Theorem keep_going_twice_runs_all (k : Z) (its : list Iteration) :
  k >= 2 ->
  Forall undisturbed its ->
  forall st log, exists st',
    main_loop (Some k) its st log = Ok (st', log ++ statuses its).
Proof. exact (main_loop_undisturbed k its). Qed.

(** Five tests, the third of which fails with status 1. *)
Definition five_runs : list Iteration :=
  [completed 0 false; completed 0 false; completed 1 false;
   completed 0 false; completed 2 false].

(** The loop theorem at [five_runs] with [-k] given once. *)
Lemma continued_runs_tolerated_witness :
  exists new,
    [0; 0; 1] = [] ++ new
    /\ forall i e, (S i < length new)%nat -> new !! i = Some e ->
         tolerated (Some 1) e.
Proof.
  apply (continued_runs_tolerated (Some 1) five_runs initial
           {| run_count := 3; failure_count := 1; last_exit_status := 1 |}
           [] [0; 0; 1]).
  reflexivity.
Defined.

(** The theorem on batches without [-k] at [five_runs]. *)
Lemma no_keep_going_one_failure_witness :
  0 <= 1 <= 1
  /\ forall i e, (S i < length [0; 0; 1])%nat ->
       [0; 0; 1] !! i = Some e -> e = 0.
Proof.
  apply (no_keep_going_one_failure None five_runs
           {| run_count := 3; failure_count := 1; last_exit_status := 1 |}
           [0; 0; 1]).
  - reflexivity.
  - reflexivity.
Defined.

(** The interrupt theorem at a batch interrupted before its first run. *)
Lemma interrupt_stops_before_run_witness :
  main_loop (Some 2)
    ({| term_count := 1; run := Ok 0; unrecoverable_error := false |}
     :: five_runs) initial []
  = Ok (initial, []).
Proof.
  apply interrupt_stops_before_run. reflexivity.
Defined.

(** The theorem on [-k -k] at [five_runs]: all five tests are run. *)
Lemma keep_going_twice_runs_all_witness :
  exists st', main_loop (Some 2) five_runs initial []
              = Ok (st', [0; 0; 1; 0; 2]).
Proof.
  apply (keep_going_twice_runs_all 2 five_runs); [lia|].
  unfold five_runs.
  repeat (constructor;
          [unfold undisturbed, completed; simpl;
           split; [lia|split; [reflexivity|eauto]]|]).
  constructor.
Defined.

(** With [-k] given twice and every run undisturbed, [main] exits with the
    status of the run when there was one test, and otherwise with 0 when
    every run passed and 1 when some run failed: the loop and lines
    143-150 put together. *)
Theorem keep_going_twice_exit_code (k : Z) (its : list Iteration) :
  k >= 2 ->
  Forall undisturbed its ->
  main true (Some k) its
  = Ok match statuses its with
       | [e] => e
       | log => if forallb (fun e => e =? 0) log then 0 else 1
       end.
Proof.
  intros Hk Hall.
  destruct (main_loop_undisturbed k its Hk Hall initial []) as [st' Hloop].
  unfold main. cbn [negb]. rewrite Hloop. f_equal.
  rewrite (ControllerFacts.exit_code_describes st' (statuses its)).
  - unfold ControllerFacts.spec_exit_code.
    destruct (statuses its) as [|e [|e' log]]; reflexivity.
  - apply (ControllerFacts.main_loop_describes (Some k) its initial [] st'
             ([] ++ statuses its) ControllerFacts.describes_initial Hloop).
Qed.


(** The exit-code theorem at [five_runs]: two of the five runs fail. *)
Lemma keep_going_twice_exit_code_witness :
  main true (Some 2) five_runs = Ok 1.
Proof.
  apply (keep_going_twice_exit_code 2 five_runs); [lia|].
  unfold five_runs.
  repeat (constructor;
          [unfold undisturbed, completed; simpl;
           split; [lia|split; [reflexivity|eauto]]|]).
  constructor.
Defined.


End ControllerLoopFacts.

(** ** The run-directory manager and the file system *)

Module RunDirFsFacts.
Import Py RunDir.

Lemma string_length_append (a b : string) :
  String.length (a +:+ b) = String.length a + String.length b.
Proof. induction a as [|c a IH]; simpl; [reflexivity|rewrite IH; lia]. Qed.

Lemma append_longer (a b : string) : b <> EmptyString -> a +:+ b <> a.
Proof.
  intros Hb Heq. apply (f_equal String.length) in Heq.
  rewrite string_length_append in Heq.
  destruct b; [congruence|simpl in Heq; lia].
Qed.

Lemma os_mkdir_fs path w :
  (exists w', os_mkdir path w = (Ok tt, w')
      /\ fs w !! path = None /\ fs w' = <[path := Dir]> (fs w)
      /\ observer w' = observer w)
  \/ (exists e w', os_mkdir path w = (Raise (OSError e), w')
      /\ fs w' = fs w /\ observer w' = observer w).
Proof.
  unfold os_mkdir, syscall.
  destruct (fault w (calls w)) as [e|].
  - right. eexists _, _. simpl. eauto.
  - destruct (fs w !! path) eqn:Hp.
    + right. eexists _, _. simpl. eauto.
    + left. eexists. simpl. eauto.
Qed.

Lemma os_symlink_fs source name w :
  (exists w', os_symlink source name w = (Ok tt, w')
      /\ fs w !! name = None /\ fs w' = <[name := Symlink source]> (fs w))
  \/ (exists e w', os_symlink source name w = (Raise (OSError e), w')
      /\ fs w' = fs w).
Proof.
  unfold os_symlink, syscall.
  destruct (fault w (calls w)) as [e|].
  - right. eexists _, _. simpl. eauto.
  - destruct (fs w !! name) eqn:Hp.
    + right. eexists _, _. simpl. eauto.
    + left. eexists. simpl. eauto.
Qed.

Lemma os_rename_fs old new w :
  (exists n w', os_rename old new w = (Ok tt, w')
      /\ fs w !! old = Some n
      /\ fs w' = <[new := n]> (delete old (fs w))
      /\ (fs w !! new = Some Dir -> n = Dir))
  \/ (exists e w', os_rename old new w = (Raise (OSError e), w')
      /\ fs w' = fs w).
Proof.
  unfold os_rename, syscall.
  destruct (fault w (calls w)) as [e|].
  - right. eexists _, _. simpl. eauto.
  - destruct (fs w !! old) as [n|] eqn:Hold.
    + destruct n, (fs w !! new) as [[]|] eqn:Hnew;
        first [left; eexists _, _; simpl;
               split; [reflexivity|]; split; [reflexivity|];
               split; [reflexivity|]; intros; congruence
              |right; eexists _, _; simpl; eauto].
    + right. eexists _, _. simpl. eauto.
Qed.

Section Facts.
Variable strftime : Z -> string.
Variable abspath : string -> string.
Variable format_06i : Z -> string.
Variable mkdir_p : string -> M unit.

(** The temporary name [symlink_f] uses in the world [w]. *)
Definition temp_name (link_name : string) (w : World) : string :=
  link_name +:+ "-" +:+ format_06i (dice w (rolls w)) +:+ "~".

Lemma temp_name_fresh link_name w : temp_name link_name w <> link_name.
Proof. apply append_longer. discriminate. Qed.

(** What [symlink_f] does to the file system. *)
Definition symlink_f_effect (source link_name : string) (w : World)
    (r : result unit) (w' : World) : Prop :=
  let temp := temp_name link_name w in
  (r = Ok tt ->
     fs w !! temp = None
     /\ fs w !! link_name <> Some Dir
     /\ fs w' !! link_name = Some (Symlink source)
     /\ fs w' !! temp = None)
  /\ (forall e, r = Raise e -> fs w' !! link_name = fs w !! link_name)
  /\ (forall p, p <> link_name -> p <> temp -> fs w' !! p = fs w !! p).

Lemma symlink_f_fs source link_name w r w' :
  symlink_f format_06i source link_name w = (r, w') ->
  symlink_f_effect source link_name w r w'.
Proof.
  unfold symlink_f, symlink_f_effect, and_then, temp_name.
  unfold random_randint at 1. cbv zeta.
  pose proof (temp_name_fresh link_name w) as Hfresh. unfold temp_name in Hfresh.
  set (temp := link_name +:+ "-" +:+ format_06i (dice w (rolls w)) +:+ "~")
    in *.
  match goal with
  | |- context [os_symlink source temp ?w0] =>
    destruct (os_symlink_fs source temp w0)
      as [(w1 & -> & Hnone & Hfs1)|(e & w1 & -> & Hfs1)]
  end; cbn [fs] in *.
  - destruct (os_rename_fs temp link_name w1)
      as [(n & w2 & -> & Hold & Hfs2 & Hdir)|(e & w2 & -> & Hfs2)].
    + intros [= <- <-]. rewrite Hfs1, lookup_insert_eq in Hold.
      injection Hold as <-. rewrite Hfs2, Hfs1.
      split; [intros _|split; [discriminate|]].
      * split; [exact Hnone|]. split.
        { intros Hd. assert (Symlink source = Dir); [|discriminate].
          apply Hdir. rewrite Hfs1, lookup_insert_ne by exact Hfresh.
          exact Hd. }
        split; [apply lookup_insert_eq|].
        rewrite lookup_insert_ne by congruence. apply lookup_delete_eq.
      * intros p Hp1 Hp2.
        rewrite lookup_insert_ne, lookup_delete_ne, lookup_insert_ne
          by congruence. reflexivity.
    + intros [= <- <-]. rewrite Hfs2, Hfs1.
      split; [discriminate|]. split.
      * intros _ _. apply lookup_insert_ne. exact Hfresh.
      * intros p _ Hp2. apply lookup_insert_ne. congruence.
  - intros [= <- <-]. rewrite Hfs1.
    split; [discriminate|]. split; auto.
Qed.

(** [symlink_f] replaces the link in one step: afterwards [link_name] is
    either what it was or a link to [source], never missing or half
    written.  On success it is the new link and the temporary name is gone;
    on failure it is untouched.  No other path changes, except that a
    failed rename leaves the temporary link behind. *)
Theorem symlink_f_atomic (source link_name : string) (w : World) :
  symlink_f_effect source link_name w
    (fst (symlink_f format_06i source link_name w))
    (snd (symlink_f format_06i source link_name w)).
Proof. apply symlink_f_fs, surjective_pairing. Qed.

(** What [make_rundir] does to the file system. *)
Definition make_rundir_effect (outputdir : string) (w : World)
    (r : result (option string)) (w' : World) : Prop :=
  observer w' = observer w
  /\ match r with
     | Ok (Some rundir) =>
       fs w !! path_join outputdir rundir = None
       /\ fs w' = <[path_join outputdir rundir := Dir]> (fs w)
     | Ok None => False
     | Raise _ => fs w' = fs w
     end.

Lemma make_rundir_fs outputdir tag w r w' :
  make_rundir strftime outputdir tag w = (r, w') ->
  make_rundir_effect outputdir w r w'.
Proof.
  unfold make_rundir, make_rundir_effect.
  cbn [make_rundir_for]. unfold datetime_now at 1. cbv zeta.
  match goal with
  | |- context [os_mkdir ?p ?w0] =>
    destruct (os_mkdir_fs p w0)
      as [(w1 & -> & Hn1 & Hfs1 & Ho1)|(e & w1 & -> & Hfs1 & Ho1)]
  end; cbn [fs observer] in *.
  - intros [= <- <-]. auto.
  - destruct (is_EEXIST e && (0 =? 0)%Z); [|intros [= <- <-]; auto].
    unfold datetime_now, time_sleep. cbv zeta.
    match goal with
    | |- context [os_mkdir ?p ?w0] =>
      destruct (os_mkdir_fs p w0)
        as [(w2 & -> & Hn2 & Hfs2 & Ho2)|(e2 & w2 & -> & Hfs2 & Ho2)]
    end; cbn [fs observer] in *.
    + intros [= <- <-]. rewrite Hfs1 in Hfs2, Hn2.
      rewrite Ho2, Ho1. auto.
    + rewrite andb_false_r. intros [= <- <-].
      rewrite Ho2, Ho1, Hfs2, Hfs1. auto.
Qed.

(** [make_rundir] either creates exactly one directory, at a path that
    did not exist, and returns its name, or raises and leaves the file
    system as it was; it never returns [None] and never touches the
    observer. *)
Theorem make_rundir_creates (outputdir tag : string) (w : World) :
  make_rundir_effect outputdir w
    (fst (make_rundir strftime outputdir tag w))
    (snd (make_rundir strftime outputdir tag w)).
Proof. apply (make_rundir_fs outputdir tag), surjective_pairing. Qed.

(** When [setup_dirs] reaches its [yield], the run directory exists as a
    directory and [current<tag>] is a symbolic link to it. *)
Theorem setup_dirs_enter_publishes (outputdir tag : string) (w w1 : World)
    (rundir : string) :
  setup_dirs_enter strftime abspath format_06i mkdir_p outputdir tag w
    = (Ok rundir, w1) ->
  fs w1 !! path_join outputdir rundir = Some Dir
  /\ fs w1 !! path_join outputdir ("current" +:+ tag)
     = Some (Symlink rundir).
Proof.
  unfold setup_dirs_enter, and_then, ret, raise, state_sender_set.
  destruct (mkdir_p outputdir w) as [[[]|] wa]; [|discriminate].
  destruct (make_rundir strftime outputdir tag wa) as [r wb] eqn:Hmk.
  apply make_rundir_fs in Hmk as [_ Hmk].
  destruct r as [[rd|]|]; try discriminate.
  destruct Hmk as [_ Hfsb].
  destruct (symlink_f format_06i rd (path_join outputdir ("current" +:+ tag))
              wb) as [r wc] eqn:Hln.
  apply symlink_f_fs in Hln as (Hok & _ & Hframe).
  destruct r as [[]|]; [|discriminate].
  destruct (Hok eq_refl) as (Htemp & Hnodir & Hlink & _).
  intros [= <- <-]. cbn [fs]. split; [|exact Hlink].
  assert (Hrun : fs wb !! path_join outputdir rd = Some Dir)
    by (rewrite Hfsb; apply lookup_insert_eq).
  rewrite Hframe; [exact Hrun| |]; intros Heq; rewrite Heq in Hrun;
    congruence.
Qed.

End Facts.

(** The theorem on [setup_dirs] in a quiet world with an output
    directory. *)
Lemma setup_dirs_enter_publishes_witness :
  let w1 := snd (setup_dirs_enter RunDirFacts.stamp RunDirFacts.rooted
                   RunDirFacts.six_zeros RunDirFacts.exists_already
                   "out" "-box"
                   (RunDirFacts.quiet_world {["out" := Dir]})) in
  fs w1 !! "out/2015-01-01_00.00.00-box" = Some Dir
  /\ fs w1 !! "out/current-box" = Some (Symlink "2015-01-01_00.00.00-box").
Proof.
  intros w1.
  apply (setup_dirs_enter_publishes RunDirFacts.stamp RunDirFacts.rooted
           RunDirFacts.six_zeros RunDirFacts.exists_already "out" "-box"
           (RunDirFacts.quiet_world {["out" := Dir]}) w1
           "2015-01-01_00.00.00-box").
  vm_compute. reflexivity.
Defined.

End RunDirFsFacts.

(** ** Weighted choice: what can and cannot be chosen *)

Module WeightedChoiceEdgeFacts.
Import Py WeightedChoice WeightedChoiceFacts.
Local Open Scope Q_scope.

Section Facts.
Context {C : Type}.
Implicit Types (choices pre post : list (C * Q)) (upto r u w : Q).

(** When the loop returns an item, the running sum before it was not
    above the draw and the sum with it is. *)
Lemma scan_result choices : forall upto r c,
  upto <= r ->
  scan choices upto r = Ok c ->
  exists pre w post,
    choices = pre ++ (c, w) :: post
    /\ running_sum pre upto <= r < running_sum pre upto + w.
Proof.
  induction choices as [|[c' w'] rest IH]; intros upto r c Hle;
    cbn [scan]; [discriminate|].
  destruct (upto + w' ?= r) eqn:Hcmp.
  - apply Qeq_alt in Hcmp. intros Hs.
    destruct (IH (upto + w') r c) as (pre & w & post & -> & Hb);
      [lra|exact Hs|].
    exists ((c', w') :: pre), w, post. split; [reflexivity|exact Hb].
  - apply Qlt_alt in Hcmp. intros Hs.
    destruct (IH (upto + w') r c) as (pre & w & post & -> & Hb);
      [lra|exact Hs|].
    exists ((c', w') :: pre), w, post. split; [reflexivity|exact Hb].
  - apply Qgt_alt in Hcmp. intros [= <-].
    exists [], w', rest. unfold running_sum; simpl.
    split; [reflexivity|]. lra.
Qed.

(** An item of weight zero is never chosen: whatever [weighted_choice]
    returns stands in the list with a positive weight. *)
Theorem chosen_weight_positive choices u c :
  nonnegative choices ->
  0 <= u ->
  weighted_choice u choices = Ok c ->
  exists pre w post, choices = pre ++ (c, w) :: post /\ 0 < w.
Proof.
  intros Hnn Hu Hc. unfold weighted_choice in Hc.
  assert (Htot : 0 <= sum_weights choices)
    by apply (running_sum_mono choices 0 Hnn).
  assert (Hr : 0 <= uniform 0 (sum_weights choices) u)
    by (apply uniform_nonneg; assumption).
  destruct (scan_result choices 0 _ c Hr Hc) as (pre & w & post & Heq & Hb).
  exists pre, w, post. split; [exact Heq|]. lra.
Qed.

(** When every weight is zero (the empty list included), the assertion
    fails whatever the random source gives. *)
Theorem zero_weights_assert choices u :
  Forall (fun cw => snd cw == 0) choices ->
  weighted_choice u choices = Raise AssertionError.
Proof.
  intros Hzero. unfold weighted_choice.
  assert (Hsum : forall upto, running_sum choices upto == upto).
  { induction Hzero as [|[c w] rest Hw _ IH]; intros upto;
      unfold running_sum in *; simpl; [reflexivity|].
    simpl in Hw. specialize (IH (upto + w)). lra. }
  assert (Hscan : forall upto r, upto <= r ->
            scan choices upto r = Raise AssertionError).
  { clear Hsum.
    induction Hzero as [|[c w] rest Hw _ IH]; intros upto r Hle;
      cbn [scan]; [reflexivity|]. simpl in Hw.
    destruct (upto + w ?= r) eqn:Hcmp.
    - apply IH. apply Qeq_alt in Hcmp. lra.
    - apply IH. apply Qlt_alt in Hcmp. lra.
    - apply Qgt_alt in Hcmp. lra. }
  apply Hscan.
  specialize (Hsum 0). unfold running_sum in Hsum.
  unfold uniform, sum_weights.
  set (total := fold_left Qplus (map snd choices) 0) in *. nra.
Qed.

End Facts.

(** The theorem on chosen weights at a list with a zero weight. *)
Lemma chosen_weight_positive_witness :
  exists pre w post,
    [(1%Z, 0); (2%Z, 3)] = pre ++ (2%Z, w) :: post /\ 0 < w.
Proof.
  apply (chosen_weight_positive [(1%Z, 0); (2%Z, 3)] 0 2%Z).
  - repeat constructor; simpl; lra.
  - lra.
  - reflexivity.
Defined.

(** The theorem on zero weights at two items of weight zero. *)
Lemma zero_weights_assert_witness :
  weighted_choice (1 # 2) [(1%Z, 0); (2%Z, 0)] = Raise AssertionError.
Proof.
  apply zero_weights_assert.
  repeat constructor; simpl; reflexivity.
Defined.

End WeightedChoiceEdgeFacts.

(** ** What the schedulers yield *)

Module SchedulerFacts.
Import Py Gen GenFacts.

Section Pull.
Context {St A : Type}.
Variable P : St -> Prop.
Variable Q : A -> Prop.
Variable next : St -> step St A.

(** If every value yielded from a state in [P] is in [Q] and leaves a
    state in [P], all the values drawn are in [Q]. *)
Lemma pull_yields_sat :
  (forall s, P s ->
     match next s with
     | Yield a s' => Q a /\ P s'
     | _ => True
     end) ->
  forall n s, P s -> Forall Q (yields n next s).
Proof.
  intros Hstep. unfold yields.
  induction n as [|n IH]; intros s Hs; [constructor|].
  cbn [pull]. specialize (Hstep s Hs).
  destruct (next s) as [a s'|s'|e s'|]; try constructor.
  destruct Hstep as [Ha Hs']. specialize (IH s' Hs').
  destruct (pull n next s'). simpl in *. constructor; assumption.
Qed.


End Pull.

Section LoopTests.
Import Sequential.
Context {T : Type}.

(** [loop_tests] only yields tests of the list it was given. *)
Theorem loop_tests_members (test_cases : list T) (repeat : bool) (n : nat) :
  Forall (fun t => t ∈ test_cases)
    (yields n (next test_cases repeat) (loop_tests test_cases)).
Proof.
  apply (pull_yields_sat
           (fun s => match s with
                     | Running rest => rest ⊆ test_cases
                     | Finished => True
                     end)).
  - intros [rest|] Hs; cbn [next]; [|exact I].
    destruct rest as [|t rest].
    + destruct repeat; cbn [negb]; [|exact I].
      destruct test_cases as [|t rest]; [exact I|].
      split; [left|]. intros t' Ht'. right. exact Ht'.
    + split; [apply Hs; left|].
      intros t' Ht'. apply Hs. right. exact Ht'.
  - intros t Ht. exact Ht.
Qed.


End LoopTests.

Section ShuffleYields.
Import WeightedChoice Shuffle ShuffleFacts.
Context {T : Type} `{Countable T}.
Implicit Types (w : World T) (l : list T).







(** On an empty list of tests, [shuffle] returns at once without [repeat];
    with [repeat] its first call fails on the assertion of
    [weighted_choice], whatever the random source gives. *)
Theorem shuffle_empty (x : nat) w (n : nat) :
  heap w !! x = Some [] ->
  (exists sw, pull (S n) next (shuffle x false, w) = ([], Exhausted sw))
  /\ exists sw, pull (S n) next (shuffle x true, w)
                = ([], Raised AssertionError sw).
Proof.
  intros Hx.
  assert (Hnext : forall repeat, exists y w2,
            heap w2 !! y = Some []
            /\ next (Created x repeat, w)
               = first_pass y 0 ∅ repeat w2).
  { intros repeat.
    destruct (copy_list_fresh x w [] Hx) as (y & Hy & Hcopy).
    exists y. eexists. split; [|cbn [next]; rewrite Hcopy].
    2: { unfold random_shuffle. cbn [heap set_heap].
         rewrite lookup_insert_eq. cbn [length Nat.sub shuffle_down].
         cbn [heap set_heap]. rewrite lookup_insert_eq. reflexivity. }
    apply lookup_insert_eq. }
  split.
  - destruct (Hnext false) as (y & w2 & Hy & Hn).
    cbn [pull]. unfold shuffle. rewrite Hn. unfold first_pass.
    rewrite Hy. cbn [lookup list_lookup negb]. eauto.
  - destruct (Hnext true) as (y & w2 & Hy & Hn).
    cbn [pull]. unfold shuffle. rewrite Hn. unfold first_pass.
    rewrite Hy. cbn [lookup list_lookup negb].
    unfold draw. rewrite map_to_list_empty. cbn [weights].
    unfold random_random. cbv zeta. cbn [weighted_choice scan].
    eauto.
Qed.

(** The number of runs a timing table records: the sum of its
    [run_count] fields. *)
Definition total_runs (tm : gmap T (Q * Z)) : Z :=
  map_fold (fun _ e acc => (snd e + acc)%Z) 0%Z tm.

Lemma total_runs_insert_new (tm : gmap T (Q * Z)) k e :
  tm !! k = None -> total_runs (<[k := e]> tm) = (snd e + total_runs tm)%Z.
Proof.
  intros Hk. unfold total_runs.
  apply (map_fold_insert_L (fun _ e acc => (snd e + acc)%Z)); [|exact Hk].
  intros. lia.
Qed.

Lemma total_runs_record (tm : gmap T (Q * Z)) k total count total' :
  tm !! k = Some (total, count) ->
  total_runs (<[k := (total', (count + 1)%Z)]> tm) = (total_runs tm + 1)%Z.
Proof.
  intros Hk.
  rewrite <- (insert_delete_id tm k (total, count) Hk) at 2.
  rewrite <- (insert_delete_eq tm).
  rewrite !total_runs_insert_new by apply lookup_delete_eq.
  simpl. lia.
Qed.

Lemma total_runs_zero (tm : gmap T (Q * Z)) :
  (forall k e, tm !! k = Some e -> snd e = 0%Z) -> total_runs tm = 0%Z.
Proof.
  unfold total_runs.
  apply (map_fold_weak_ind
           (fun r (m : gmap T (Q * Z)) =>
              (forall k e, m !! k = Some e -> snd e = 0%Z) -> r = 0%Z)).
  - reflexivity.
  - intros k e m r Hk IH Hall.
    rewrite (Hall k e) by apply lookup_insert_eq.
    rewrite IH; [reflexivity|].
    intros k' e' Hk'. apply (Hall k').
    rewrite lookup_insert_ne by congruence. exact Hk'.
Qed.

Lemma total_runs_initial l : total_runs (initial_timings l) = 0%Z.
Proof.
  apply total_runs_zero. intros k e. rewrite initial_timings_lookup.
  destruct (decide (k ∈ l)); [|discriminate]. intros [= <-]. reflexivity.
Qed.

(** The runs on record in a state: none is even started before the first
    call. *)
Definition runs_recorded (s : state T) : Z :=
  match s with
  | Created _ _ => (-1)%Z
  | FirstPass _ _ _ _ tm _ | Draws _ _ tm => total_runs tm
  | Finished => 0%Z
  end.

Lemma draw_yields_timings (tm : gmap T (Q * Z)) w a sw' :
  draw tm w = Yield a sw' -> runs_recorded (fst sw') = total_runs tm.
Proof.
  unfold draw. destruct (weights (map_to_list tm)); [|discriminate].
  unfold random_random. cbv zeta.
  destruct (weighted_choice _ _); [|discriminate].
  unfold time_time. cbv zeta. intros [= <- <-]. reflexivity.
Qed.

Lemma first_pass_yields_timings y idx (tm : gmap T (Q * Z)) repeat w a sw' :
  first_pass y idx tm repeat w = Yield a sw' ->
  runs_recorded (fst sw') = total_runs tm.
Proof.
  unfold first_pass. destruct (heap w !! y) as [l|]; [|discriminate].
  destruct (l !! idx).
  - unfold time_time. cbv zeta. intros [= <- <-]. reflexivity.
  - destruct repeat; cbn [negb]; [apply draw_yields_timings|discriminate].
Qed.

Lemma record_run_counts test d (tm tm' : gmap T (Q * Z)) :
  record_run test d tm = Ok tm' -> total_runs tm' = (total_runs tm + 1)%Z.
Proof.
  unfold record_run. destruct (tm !! test) as [[total count]|] eqn:Htm;
    [|discriminate].
  intros [= <-]. apply (total_runs_record tm test total count), Htm.
Qed.

(** Every call that yields records one more run. *)
Lemma next_counts sw a sw' :
  next sw = Yield a sw' ->
  runs_recorded (fst sw') = (runs_recorded (fst sw) + 1)%Z.
Proof.
  destruct sw as [s w].
  destruct s as [x repeat|y idx test start tm repeat|test start tm|];
    cbn [next fst runs_recorded].
  - destruct (copy_list x w) as [[y|] w1]; [|discriminate].
    destruct (random_shuffle y w1) as [[[]|] w2]; [|discriminate].
    destruct (heap w2 !! y) as [l|]; [|discriminate].
    intros Hy. rewrite (first_pass_yields_timings _ _ _ _ _ _ _ Hy).
    apply total_runs_initial.
  - unfold time_time. cbv zeta.
    destruct (record_run test _ tm) as [tm'|] eqn:Hrec; [|discriminate].
    intros Hy. rewrite (first_pass_yields_timings _ _ _ _ _ _ _ Hy).
    apply (record_run_counts _ _ _ _ Hrec).
  - unfold time_time. cbv zeta.
    destruct (record_run test _ tm) as [tm'|] eqn:Hrec; [|discriminate].
    intros Hy. rewrite (draw_yields_timings _ _ _ _ Hy).
    apply (record_run_counts _ _ _ _ Hrec).
  - discriminate.
Qed.

Lemma pull_counts : forall n sw,
  match pull n next sw with
  | (ys, Suspended sw') =>
    runs_recorded (fst sw')
    = (runs_recorded (fst sw) + Z.of_nat (length ys))%Z
  | _ => True
  end.
Proof.
  induction n as [|n IH]; intros sw; cbn [pull].
  - simpl. lia.
  - destruct (next sw) as [a sw1|sw1|e sw1|] eqn:Hnext; try exact I.
    specialize (IH sw1). destruct (pull n next sw1) as [ys e].
    destruct e; try exact I.
    rewrite IH, (next_counts _ _ _ Hnext). simpl length. lia.
Qed.

(** The run counts of the timing table add up to the number of runs
    completed: at every [yield], to the number of tests yielded so far
    less the one in flight.  This needs no assumption on the clock or the
    random source. *)
Theorem run_counts_add_up (x : nat) (repeat : bool) w (n : nat)
    (ys : list T) (s' : state T) w' :
  pull n next (shuffle x repeat, w) = (ys, Suspended (s', w')) ->
  ys <> [] ->
  total_runs (timings_of s') = (Z.of_nat (length ys) - 1)%Z.
Proof.
  intros Hpull Hne.
  pose proof (pull_counts n (shuffle x repeat, w)) as Hc.
  rewrite Hpull in Hc.
  cbn [fst shuffle runs_recorded] in Hc.
  destruct s' as [x' r'|y idx test start tm r'|test start tm|];
    cbn [runs_recorded timings_of] in *; try lia.
  - destruct ys; [congruence|simpl in Hc; lia].
  - unfold total_runs. rewrite map_fold_empty. lia.
Qed.

End ShuffleYields.


(** The theorem on run counts at [steady_world], five calls: four runs
    are on record while the fifth test is in flight. *)
Lemma run_counts_add_up_witness :
  let r := pull 5 Shuffle.next
             (Shuffle.shuffle 0 true, ShuffleFacts.steady_world) in
  match snd r with
  | Suspended (s', _) =>
    length (fst r) = 5
    /\ total_runs (ShuffleFacts.timings_of s') = 4%Z
  | _ => False
  end.
Proof.
  intros r. destruct (snd r) as [[s' w']| | |] eqn:He;
    try (vm_compute in He; discriminate He).
  assert (Hlen : length (fst r) = 5) by (vm_compute; reflexivity).
  split; [exact Hlen|].
  rewrite (run_counts_add_up 0 true ShuffleFacts.steady_world 5 (fst r) s' w').
  - rewrite Hlen. reflexivity.
  - rewrite <- He. apply surjective_pairing.
  - intros Hnil. rewrite Hnil in Hlen. discriminate Hlen.
Defined.

(** The theorem on empty lists at a world whose list object is empty. *)
Lemma shuffle_empty_witness :
  let w := {| Shuffle.heap := {[ 0 := @nil Z ]};
              Shuffle.clock := fun _ => 0%Q; Shuffle.ticks := 0;
              Shuffle.rng := fun _ => 0%Q; Shuffle.draws := 0 |} in
  (exists sw, pull 1 Shuffle.next (Shuffle.shuffle 0 false, w)
              = ([], Exhausted sw))
  /\ exists sw, pull 1 Shuffle.next (Shuffle.shuffle 0 true, w)
                = ([], Raised AssertionError sw).
Proof.
  intros w. apply (shuffle_empty 0 w 0). reflexivity.
Defined.

End SchedulerFacts.
